(** * Sudoku solver (SudokuCSP): a shallow embedding and its verification

    The Python class [SudokuCSP] of [main.py] keeps one mutable attribute,
    [self.grid], a list of nine row objects, each a list of nine integers
    (0 marks an empty cell).  Its methods read and write that attribute
    only.  The embedding has three layers:

    - the methods themselves, written once as programs over three memory
      operations (read a row of [self.grid], assign to a cell of
      [self.grid], raise [IndexError]);
    - an interpreter [run] of such programs over the value held by
      [self.grid], which also records the successive grid states;
    - an interpreter [run_store] over a store of row objects, in which the
      caller's grid and the solver's grid are lists of addresses, used to
      settle what [__init__] shares with its caller.

    The functions around the class, [display_grid], [get_user_input] and
    [main], are embedded as well: what they print is a list of outputs,
    what the user types a list of lines, and a session a function of the
    lines typed.

    Cell values and candidate digits are Python integers, here [Z].  Row
    and column indices are natural numbers: the methods index the grid
    with values of [range] only, so Python's negative indices do not
    arise.  An index past the end raises [IndexError], which ends the run.
    The recursion of [solve] is at most 82 calls deep on a 9x9 grid, far
    below the interpreter's recursion limit, which is not modelled. *)

From stdpp Require Import base decidable option list numbers sorting strings.
From Stdlib Require DecimalString.

Local Open Scope Z_scope.
Local Open Scope nat_scope.

Abbreviation grid := (list (list Z)).

(** * Part I: the embedding and the predicates *)

(** ** Outcomes, events and programs *)

(** What a call can end with: a result, the [IndexError] Python raises on
    an index out of range, or the exhaustion of the recursion budget of the
    model ([solve] is recursive, its model is by recursion on a budget). *)
Inductive outcome (A : Type) : Type :=
  | Done (a : A)
  | IndexError
  | OutOfFuel.
Arguments Done {A} a.
Arguments IndexError {A}.
Arguments OutOfFuel {A}.

(** Observations recorded by [run]: the entry of [solve] at a recursion
    depth with the grid it finds, and each assignment to a cell with the
    grid that results from it. *)
Inductive event : Type :=
  | EvEnter (depth : nat) (g : grid)
  | EvWrite (row col : nat) (num : Z) (g : grid).

Definition event_grid (e : event) : grid :=
  match e with
  | EvEnter _ g => g
  | EvWrite _ _ _ g => g
  end.

(** Programs over the memory of a solver: what a method does to
    [self.grid], step by step, ending with a value of type [A]. *)
Inductive prog (A : Type) : Type :=
  | Ret (a : A)
  | GetRow (row : nat) (k : list Z → prog A)        (* self.grid[row] *)
  | SetCell (row col : nat) (num : Z) (k : prog A)  (* self.grid[row][col] = num *)
  | Enter (depth : nat) (k : prog A)                (* entry of solve, no effect *)
  | Raise                                           (* IndexError *)
  | Starve.                                         (* recursion budget used up *)
Arguments Ret {A} a.
Arguments GetRow {A} row k.
Arguments SetCell {A} row col num k.
Arguments Enter {A} depth k.
Arguments Raise {A}.
Arguments Starve {A}.

Fixpoint prog_bind {A B : Type} (f : A → prog B) (p : prog A) : prog B :=
  match p with
  | Ret a => f a
  | GetRow row k => GetRow row (λ rw, prog_bind f (k rw))
  | SetCell row col num k => SetCell row col num (prog_bind f k)
  | Enter depth k => Enter depth (prog_bind f k)
  | Raise => Raise
  | Starve => Starve
  end.

#[global] Instance prog_mret : MRet prog := @Ret.
#[global] Instance prog_mbind : MBind prog := @prog_bind.

Definition get_row (row : nat) : prog (list Z) := GetRow row Ret.
Definition set_cell (row col : nat) (num : Z) : prog unit :=
  SetCell row col num (Ret tt).
Definition enter (depth : nat) : prog unit := Enter depth (Ret tt).

(** [self.grid[row][col]]: the row is fetched, then indexed. *)
Definition get_cell (row col : nat) : prog Z :=
  rw ← get_row row;
  match rw !! col with
  | Some v => mret v
  | None => Raise
  end.

(** [[e(x) for x in xs]]: every element is evaluated, in order. *)
Fixpoint for_list {A B : Type} (xs : list A) (body : A → prog B) : prog (list B) :=
  match xs with
  | [] => mret []
  | x :: xs' => y ← body x; ys ← for_list xs' body; mret (y :: ys)
  end.

(** [for x in xs: body] where [body] may execute [return b]: the body
    yields [Some b] when it returns [b] from the enclosing function, and
    [None] when it falls through to the next iteration. *)
Fixpoint for_return {A B : Type} (xs : list A) (body : A → prog (option B))
    : prog (option B) :=
  match xs with
  | [] => mret None
  | x :: xs' =>
      r ← body x;
      match r with
      | Some b => mret (Some b)
      | None => for_return xs' body
      end
  end.

(** [for x in xs: body] where [body] updates local variables [acc]. *)
Fixpoint for_fold {A St : Type} (xs : list A) (body : St → A → prog St) (acc : St)
    : prog St :=
  match xs with
  | [] => mret acc
  | x :: xs' => acc' ← body acc x; for_fold xs' body acc'
  end.

(** ** The methods of [SudokuCSP] *)

Definition size : nat := 9.
Definition box_size : nat := 3.

Definition is_valid (row col : nat) (num : Z) : prog bool :=
  (* Row constraint *)
  rw ← get_row row;
  if decide (num ∈ rw) then mret false else
  (* Column constraint *)
  column ← for_list (seq 0 size) (λ r, get_cell r col);
  if decide (num ∈ column) then mret false else
  (* Box constraint (3x3 subgrid) *)
  let box_row := (row / 3) * 3 in
  let box_col := (col / 3) * 3 in
  found ← for_return (seq box_row 3) (λ r,
             for_return (seq box_col 3) (λ c,
               v ← get_cell r c;
               if decide (v = num) then mret (Some false) else mret None));
  match found with
  | Some b => mret b
  | None => mret true
  end.

Definition get_domain (row col : nat) : prog (list Z) :=
  v ← get_cell row col;
  if decide (v ≠ 0%Z) then mret [] else
  flags ← for_list (seqZ 1 9) (λ num, ok ← is_valid row col num; mret (num, ok));
  mret (fst <$> filter (λ x, snd x = true) flags).

Definition find_mrv_cell : prog (option (nat * nat * list Z)) :=
  let min_domain_size := 10 in
  let best_cell := None in
  st ← for_fold (seq 0 size) (λ st row,
          for_fold (seq 0 size) (λ '(min_domain_size, best_cell) col,
            v ← get_cell row col;
            if decide (v = 0%Z) then
              domain ← get_domain row col;
              if decide (length domain < min_domain_size)
              then mret (length domain, Some (row, col, domain))
              else mret (min_domain_size, best_cell)
            else mret (min_domain_size, best_cell)) st)
        (min_domain_size, best_cell);
  mret (snd st).

(** [solve], by recursion on a budget of nested calls; [depth] is the
    number of enclosing calls of [solve], reported by [enter] and used by
    nothing else. *)
Fixpoint solve_at (fuel depth : nat) : prog bool :=
  match fuel with
  | O => Starve
  | S fuel' =>
      enter depth;;
      result ← find_mrv_cell;
      match result with
      | None => mret true
      | Some (row, col, domain) =>
          if decide (domain = []) then mret false else
          r ← for_return domain (λ num,
                 set_cell row col num;;
                 solved ← solve_at fuel' (S depth);
                 if (solved : bool) then mret (Some true) else
                 (* Backtrack *)
                 set_cell row col 0%Z;;
                 mret (@None bool));
          match r with
          | Some b => mret b
          | None => mret false
          end
      end
  end.

Definition solve (fuel : nat) : prog bool := solve_at fuel 0.

(** ** Running a program on the value of [self.grid] *)

Definition log_cons {A : Type} (e : event)
    (o : outcome (A * grid * list event)) : outcome (A * grid * list event) :=
  match o with
  | Done (a, g, log) => Done (a, g, e :: log)
  | IndexError => IndexError
  | OutOfFuel => OutOfFuel
  end.

Fixpoint run {A : Type} (p : prog A) (g : grid) : outcome (A * grid * list event) :=
  match p with
  | Ret a => Done (a, g, [])
  | GetRow row k =>
      match g !! row with
      | Some rw => run (k rw) g
      | None => IndexError
      end
  | SetCell row col num k =>
      match g !! row with
      | Some rw =>
          if decide (col < length rw) then
            let g' := <[row := <[col := num]> rw]> g in
            log_cons (EvWrite row col num g') (run k g')
          else IndexError
      | None => IndexError
      end
  | Enter depth k => log_cons (EvEnter depth g) (run k g)
  | Raise => IndexError
  | Starve => OutOfFuel
  end.

(** The puzzle of [main]. *)
Definition puzzle : grid :=
  [ [5; 3; 0; 0; 7; 0; 0; 0; 0];
    [6; 0; 0; 1; 9; 5; 0; 0; 0];
    [0; 9; 8; 0; 0; 0; 0; 6; 0];
    [8; 0; 0; 0; 6; 0; 0; 0; 3];
    [4; 0; 0; 8; 0; 3; 0; 0; 1];
    [7; 0; 0; 0; 2; 0; 0; 0; 6];
    [0; 6; 0; 0; 0; 0; 2; 8; 0];
    [0; 0; 0; 4; 1; 9; 0; 0; 5];
    [0; 0; 0; 0; 8; 0; 0; 7; 9] ]%Z.

(** ** Reasoning about [run] *)

Definition then_run {A B : Type} (o : outcome (A * grid * list event))
    (f : A → grid → outcome (B * grid * list event)) : outcome (B * grid * list event) :=
  match o with
  | Done (a, g, log) =>
      match f a g with
      | Done (b, g', log') => Done (b, g', log ++ log')
      | IndexError => IndexError
      | OutOfFuel => OutOfFuel
      end
  | IndexError => IndexError
  | OutOfFuel => OutOfFuel
  end.

(** A program that only reads: it returns [a] and leaves the grid as it
    found it, recording nothing. *)
Definition reads {A : Type} (p : prog A) (g : grid) (a : A) : Prop :=
  run p g = Done (a, g, []).

(** ** Grids *)

(** The value of cell [(r, c)]; rows and columns are numbered from 0. *)
Definition cell (g : grid) (r c : nat) : Z := (g !!! r) !!! c.

(** Nine rows of nine cells. *)
Definition wf_grid (g : grid) : Prop :=
  length g = size ∧ Forall (λ rw, length rw = size) g.

(** The grid after [grid[r][c] = v]. *)
Definition put (g : grid) (r c : nat) (v : Z) : grid :=
  <[r := <[c := v]> (g !!! r)]> g.

(** ** [is_valid] *)

(** [num] occurs nowhere in row [row], nowhere in column [col] and nowhere
    in the 3x3 box whose origin is [(row / 3 * 3, col / 3 * 3)]. *)
Definition no_conflict (g : grid) (row col : nat) (num : Z) : Prop :=
  (∀ c, c < 9 → cell g row c ≠ num) ∧
  (∀ r, r < 9 → cell g r col ≠ num) ∧
  (∀ i j, i < 3 → j < 3 → cell g (row / 3 * 3 + i) (col / 3 * 3 + j) ≠ num).

(** ** [find_mrv_cell] *)

(** Cell [(r', c')] is scanned before cell [(r, c)] by the row-major scan. *)
Definition scanned_before (r' c' r c : nat) : Prop :=
  r' < r ∨ (r' = r ∧ c' < c).

(** What the two local variables of the scan hold when the scan reaches
    position [(R, C)]. *)
Definition mrv_inv (g : grid) (R C : nat) (st : nat * option (nat * nat * list Z)) : Prop :=
  match st.2 with
  | None =>
      st.1 = 10 ∧ ∀ r c, c < 9 → scanned_before r c R C → cell g r c ≠ 0%Z
  | Some (r, c, domain) =>
      r < 9 ∧ c < 9 ∧ scanned_before r c R C ∧ cell g r c = 0%Z ∧
      reads (get_domain r c) g domain ∧ st.1 = length domain ∧
      ∀ r' c' domain', c' < 9 → scanned_before r' c' R C → cell g r' c' = 0%Z →
        reads (get_domain r' c') g domain' →
        length domain ≤ length domain' ∧
        (scanned_before r' c' r c → length domain < length domain')
  end.

(** The result of [find_mrv_cell] on grid [g]. *)
Definition mrv_spec (g : grid) (res : option (nat * nat * list Z)) : Prop :=
  match res with
  | None => ∀ r c, r < 9 → c < 9 → cell g r c ≠ 0%Z
  | Some (r, c, domain) =>
      r < 9 ∧ c < 9 ∧ cell g r c = 0%Z ∧ reads (get_domain r c) g domain ∧
      ∀ r' c' domain', r' < 9 → c' < 9 → cell g r' c' = 0%Z →
        reads (get_domain r' c') g domain' →
        length domain ≤ length domain' ∧
        (scanned_before r' c' r c → length domain < length domain')
  end.

(** ** Empty cells and legal placements *)

(** The cells of the grid in the order of the row-major scan. *)
Definition coords : list (nat * nat) := cprod (seq 0 size) (seq 0 size).

(** The number of empty cells. *)
Definition count_empty (g : grid) : nat :=
  length (filter (λ p, cell g p.1 p.2 = 0%Z) coords).

(** No cell is empty. *)
Definition full (g : grid) : Prop :=
  ∀ r c, r < 9 → c < 9 → cell g r c ≠ 0%Z.

(** [reach n g g']: [g'] is [g] after [n] placements, each of a digit
    1..9 in a cell that is empty and where the digit has no conflict. *)
Inductive reach : nat → grid → grid → Prop :=
  | reach_here g : reach 0 g g
  | reach_place n g r c v g' :
      r < 9 → c < 9 → cell g r c = 0%Z → (1 ≤ v ≤ 9)%Z →
      no_conflict g r c v →
      reach n (put g r c v) g' →
      reach (S n) g g'.

(** One iteration of the loop of [solve] over the domain. *)
Definition attempt (fuel' depth row col : nat) (num : Z) : prog (option bool) :=
  set_cell row col num;;
  solved ← solve_at fuel' (S depth);
  if (solved : bool) then mret (Some true) else
  set_cell row col 0%Z;;
  mret (@None bool).

(** What an event of a call of [solve] entered at depth [d] on grid [g]
    may be. *)
Definition ev_ok (g : grid) (d : nat) (e : event) : Prop :=
  match e with
  | EvEnter d' g' => ∃ n, d' = d + n ∧ reach n g g'
  | EvWrite r c v g' =>
      r < 9 ∧ c < 9 ∧ cell g r c = 0%Z ∧ cell g' r c = v ∧ ∃ n, reach n g g'
  end.

Definition solve_post (g : grid) (d : nat) (res : bool * grid * list event) : Prop :=
  let '(b, g', log) := res in
  (b = false → g' = g) ∧
  (b = true → full g') ∧
  (∃ n, reach n g g') ∧
  Forall (ev_ok g d) log.

(** ** [solve]: the search *)

(** The contract of [solve] with a budget of [fuel] nested calls: no
    [IndexError]; a result satisfies [solve_post]; the budget is exhausted
    only when it does not exceed the number of empty cells. *)
Definition solve_ok (fuel : nat) : Prop :=
  ∀ d g, wf_grid g →
    match run (solve_at fuel d) g with
    | Done res => solve_post g d res
    | IndexError => False
    | OutOfFuel => fuel ≤ count_empty g
    end.

(** ** The uniqueness invariant and complete grids *)

(** Two cells lie in a common row, column or 3x3 box. *)
Definition same_unit (r c r' c' : nat) : Prop :=
  r = r' ∨ c = c' ∨ (r / 3 = r' / 3 ∧ c / 3 = c' / 3).

(** Every non-zero value appears at most once per row, per column and per
    3x3 box. *)
Definition consistent (g : grid) : Prop :=
  ∀ r c r' c', r < 9 → c < 9 → r' < 9 → c' < 9 →
    same_unit r c r' c' → cell g r c ≠ 0%Z → cell g r c = cell g r' c' →
    r = r' ∧ c = c'.

(** Every cell holds 0 or a digit. *)
Definition in_range (g : grid) : Prop :=
  ∀ r c, r < 9 → c < 9 → (0 ≤ cell g r c ≤ 9)%Z.

Definition digits : list Z := seqZ 1 9.

Definition row_vals (g : grid) (r : nat) : list Z :=
  (λ c, cell g r c) <$> seq 0 9.
Definition col_vals (g : grid) (c : nat) : list Z :=
  (λ r, cell g r c) <$> seq 0 9.
Definition box_vals (g : grid) (br bc : nat) : list Z :=
  (λ p, cell g (br * 3 + p.1) (bc * 3 + p.2)) <$> cprod (seq 0 3) (seq 0 3).

(** A complete valid Sudoku: every cell holds a digit 1..9 and each row,
    each column and each 3x3 box is a permutation of 1..9. *)
Definition valid_sudoku (g : grid) : Prop :=
  (∀ r c, r < 9 → c < 9 → (1 ≤ cell g r c ≤ 9)%Z) ∧
  (∀ r, r < 9 → row_vals g r ≡ₚ digits) ∧
  (∀ c, c < 9 → col_vals g c ≡ₚ digits) ∧
  (∀ br bc, br < 3 → bc < 3 → box_vals g br bc ≡ₚ digits).

(** [s] keeps every filled cell of [g]. *)
Definition extends (g s : grid) : Prop :=
  ∀ r c, r < 9 → c < 9 → cell g r c ≠ 0%Z → cell s r c = cell g r c.

(** [g] has a legal completion. *)
Definition solvable (g : grid) : Prop :=
  ∃ s, wf_grid s ∧ valid_sudoku s ∧ extends g s.

(** ** The store: the caller's grid object and the solver's *)

(** A store holds the row objects, a row object being addressed by its
    position; a grid object is the list of the addresses of its rows. *)
Abbreviation store := (list (list Z)).

(** The value a grid object holds in a store. *)
Definition view (σ : store) (o : list nat) : grid := (λ l, σ !!! l) <$> o.

(** The programs of the methods run on the store: [self.grid[row]] goes
    through the address held at position [row] of [self.grid]. *)
Fixpoint run_store {A : Type} (p : prog A) (self : list nat) (σ : store)
    : outcome (A * store) :=
  match p with
  | Ret a => Done (a, σ)
  | GetRow row k =>
      match self !! row with
      | Some l =>
          match σ !! l with
          | Some rw => run_store (k rw) self σ
          | None => IndexError
          end
      | None => IndexError
      end
  | SetCell row col num k =>
      match self !! row with
      | Some l =>
          match σ !! l with
          | Some rw =>
              if decide (col < length rw)
              then run_store k self (<[l := <[col := num]> rw]> σ)
              else IndexError
          | None => IndexError
          end
      | None => IndexError
      end
  | Enter depth k => run_store k self σ
  | Raise => IndexError
  | Starve => OutOfFuel
  end.

(** [SudokuCSP.__init__]: [self.grid = [row[:] for row in grid]]; every
    row of the argument is copied into a new row object, and [self.grid]
    holds the addresses of the copies. *)
Definition init (grid_arg : list nat) (σ : store) : store * list nat :=
  (σ ++ view σ grid_arg, seq (length σ) (length grid_arg)).

(** [solver = SudokuCSP(grid); solver.solve()], as [main] does: the result
    of [solve], the grid object of the solver and the final store. *)
Definition solve_call (fuel : nat) (grid_arg : list nat) (σ : store)
    : outcome (bool * list nat * store) :=
  let '(σ1, self) := init grid_arg σ in
  match run_store (solve fuel) self σ1 with
  | Done (b, σ2) => Done (b, self, σ2)
  | IndexError => IndexError
  | OutOfFuel => OutOfFuel
  end.

(** The store in which [main] holds its puzzle, and the puzzle object. *)
Definition main_store : store := puzzle.
Definition main_puzzle : list nat := seq 0 9.

(** ** Checking the predicates on a given grid *)

Definition all_cells (P : nat → nat → bool) : bool :=
  forallb (λ p, P p.1 p.2) coords.

#[global] Instance same_unit_dec r c r' c' : Decision (same_unit r c r' c').
Proof. unfold same_unit. apply _. Defined.

Definition fullb (g : grid) : bool :=
  all_cells (λ r c, bool_decide (cell g r c ≠ 0%Z)).
Definition in_rangeb (g : grid) : bool :=
  all_cells (λ r c, bool_decide (0 ≤ cell g r c ≤ 9)%Z).
Definition extendsb (g s : grid) : bool :=
  all_cells (λ r c, bool_decide (cell g r c ≠ 0%Z → cell s r c = cell g r c)).
Definition consistentb (g : grid) : bool :=
  all_cells (λ r c, all_cells (λ r' c',
    bool_decide (same_unit r c r' c' → cell g r c ≠ 0%Z →
                 cell g r c = cell g r' c' → r = r' ∧ c = c'))).

(** The completion of [puzzle]. *)
Definition solution : grid :=
  [ [5; 3; 4; 6; 7; 8; 9; 1; 2];
    [6; 7; 2; 1; 9; 5; 3; 4; 8];
    [1; 9; 8; 3; 4; 2; 5; 6; 7];
    [8; 5; 9; 7; 6; 1; 4; 2; 3];
    [4; 2; 6; 8; 5; 3; 7; 9; 1];
    [7; 1; 3; 9; 2; 4; 8; 5; 6];
    [9; 6; 1; 5; 3; 7; 2; 8; 4];
    [2; 8; 7; 4; 1; 9; 6; 3; 5];
    [3; 4; 5; 2; 8; 6; 1; 7; 9] ]%Z.

(** [puzzle] with a 1 written in cell (0, 2), where its completion has
    a 4: the search places digits, fails and undoes them. *)
Definition twisted : grid :=
  [ [5; 3; 1; 0; 7; 0; 0; 0; 0];
    [6; 0; 0; 1; 9; 5; 0; 0; 0];
    [0; 9; 8; 0; 0; 0; 0; 6; 0];
    [8; 0; 0; 0; 6; 0; 0; 0; 3];
    [4; 0; 0; 8; 0; 3; 0; 0; 1];
    [7; 0; 0; 0; 2; 0; 0; 0; 6];
    [0; 6; 0; 0; 0; 0; 2; 8; 0];
    [0; 0; 0; 4; 1; 9; 0; 0; 5];
    [0; 0; 0; 0; 8; 0; 0; 7; 9] ]%Z.

(** A grid with a dead end: cell (0, 0) is empty, its row holds 1..8 and
    its column holds 9. *)
Definition dead_end : grid :=
  [ [0; 1; 2; 3; 4; 5; 6; 7; 8];
    [9; 0; 0; 0; 0; 0; 0; 0; 0];
    [0; 0; 0; 0; 0; 0; 0; 0; 0];
    [0; 0; 0; 0; 0; 0; 0; 0; 0];
    [0; 0; 0; 0; 0; 0; 0; 0; 0];
    [0; 0; 0; 0; 0; 0; 0; 0; 0];
    [0; 0; 0; 0; 0; 0; 0; 0; 0];
    [0; 0; 0; 0; 0; 0; 0; 0; 0];
    [0; 0; 0; 0; 0; 0; 0; 0; 0] ]%Z.

(** ** Programs that only read *)

(** A program built from reads of [self.grid] and [IndexError] alone: no
    assignment to a cell, no entry of [solve], no use of the budget. *)
Inductive readonly {A : Type} : prog A → Prop :=
  | readonly_ret a : readonly (Ret a)
  | readonly_get row k : (∀ rw, readonly (k rw)) → readonly (GetRow row k)
  | readonly_raise : readonly Raise.

(** ** Forced placements *)

(** Follows the cells [find_mrv_cell] selects for as long as each has a
    single candidate, placing it; the grid reached when no cell is empty.
    Used to check that a given puzzle has one completion only. *)
Fixpoint forced (n : nat) (g : grid) : option grid :=
  match n with
  | O => None
  | S n' =>
      match run find_mrv_cell g with
      | Done (None, _, _) => Some g
      | Done (Some (r, c, [v]), _, _) => forced n' (put g r c v)
      | _ => None
      end
  end.

(** ** Text and the console *)

(** A Python [str]: its sequence of code points. *)
Abbreviation str := (list N).

(** The code points of a literal written in ASCII. *)
Definition codes (s : string) : str :=
  Ascii.N_of_ascii <$> String.list_ascii_of_string s.
Arguments codes s%_string.

(** [s * n]. *)
Definition times (s : str) (n : nat) : str := mjoin (replicate n s).

(** [str(n)] for an integer [n]: its decimal digits, after a minus sign
    when it is negative. *)
Definition str_of_int (n : Z) : str :=
  codes (DecimalString.NilZero.string_of_int (Z.to_int n)).

Definition newline : str := [10%N].
Definition box_h : str := [0x2500%N].      (* "─" *)
Definition box_v : str := [0x2502%N].      (* "│" *)
Definition box_left : str := [0x251c%N].   (* "├" *)
Definition box_right : str := [0x2524%N].  (* "┤" *)
Definition box_cross : str := [0x253c%N].  (* "┼" *)
Definition check_mark : str := [0x2713%N]. (* "✓" *)
Definition ballot_x : str := [0x2717%N].   (* "✗" *)

(** What is written on standard output: the argument of a [print], which
    the console follows with a line break, or the prompt of an [input],
    which it does not. *)
Inductive output : Type :=
  | Printed (s : str)
  | Prompted (s : str).

(** The characters standard output receives. *)
Definition console_text (out : list output) : str :=
  mjoin ((λ o, match o with
               | Printed s => s ++ newline
               | Prompted s => s
               end) <$> out).

(** ** [display_grid] *)

(** [str(num if num != 0 else ".")]. *)
Definition cell_text (num : Z) : str :=
  if decide (num ≠ 0%Z) then str_of_int num else codes ".".

(** The row string built by the inner loop of [display_grid]. *)
Definition row_text (row : list Z) : str :=
  let row_str := box_v ++ codes " " in
  let row_str :=
    foldl (λ row_str '(j, num),
             let row_str :=
               if decide (j mod 3 = 0 ∧ j ≠ 0) then row_str ++ (box_v ++ codes " ")
               else row_str in
             row_str ++ (cell_text num ++ codes " "))
          row_str (imap pair row) in
  row_str ++ box_v.

Definition separator : str :=
  box_left ++ times box_h 7 ++ box_cross ++ times box_h 7 ++ box_cross
  ++ times box_h 7 ++ box_right.

(** [display_grid(grid)]: what it prints, in order. *)
Definition display_grid (grid : list (list Z)) : list output :=
  [Printed (newline ++ times box_h 25)]
  ++ mjoin (imap (λ i row,
       (if decide (i mod 3 = 0 ∧ i ≠ 0) then [Printed separator] else [])
       ++ [Printed (row_text row)]) grid)
  ++ [Printed (times box_h 25 ++ newline)].

(** The glyph of a cell holding 0..9: a dot for 0, the digit otherwise. *)
Definition glyph (num : Z) : N :=
  if decide (num = 0%Z) then 46%N else (48 + Z.to_N num)%N.

(** The text of a row of nine cells holding 0..9. *)
Definition row_glyphs (g : grid) (r : nat) : str :=
  [0x2502; 32; glyph (cell g r 0); 32; glyph (cell g r 1); 32; glyph (cell g r 2); 32;
   0x2502; 32; glyph (cell g r 3); 32; glyph (cell g r 4); 32; glyph (cell g r 5); 32;
   0x2502; 32; glyph (cell g r 6); 32; glyph (cell g r 7); 32; glyph (cell g r 8); 32;
   0x2502]%N.

(** ** The console session of [main] *)

(** The built-in functions [main] and [get_user_input] apply to what the
    user types, taken as given: [str.strip] and [int] (which yields no
    value when it raises [ValueError]). *)
Record builtins : Type := {
  py_strip : str → str;
  py_int : str → option Z
}.

(** The state of a session: the lines still to be read from standard
    input, what has been written on standard output, and the grid held by
    the variable [puzzle] of [main]. *)
Record world : Type := {
  w_stdin : list str;
  w_stdout : list output;
  w_puzzle : grid
}.

(** The exceptions of a session; [ExBudget] is the exhaustion of a budget
    of the model, of loop iterations or of nested calls of [solve]. *)
Inductive exn : Type :=
  | ExValueError
  | ExEOFError
  | ExIndexError
  | ExBudget.

Inductive io_result (A : Type) : Type :=
  | Ok (a : A) (w : world)
  | Exn (e : exn) (w : world).
Arguments Ok {A} a w.
Arguments Exn {A} e w.

Definition io (A : Type) : Type := world → io_result A.

#[global] Instance io_mret : MRet io := λ A a w, Ok a w.
#[global] Instance io_mbind : MBind io := λ A B f m w,
  match m w with
  | Ok a w' => f a w'
  | Exn e w' => Exn e w'
  end.

Definition raise {A : Type} (e : exn) : io A := λ w, Exn e w.

(** [print(s)]. *)
Definition print (s : str) : io unit := λ w,
  Ok tt {| w_stdin := w_stdin w;
           w_stdout := w_stdout w ++ [Printed s];
           w_puzzle := w_puzzle w |}.

(** The prints of a function that only prints. *)
Definition print_all (out : list output) : io unit := λ w,
  Ok tt {| w_stdin := w_stdin w;
           w_stdout := w_stdout w ++ out;
           w_puzzle := w_puzzle w |}.

(** [input(prompt)]: the prompt is written, then a line is read;
    [EOFError] when standard input is exhausted. *)
Definition input (prompt : str) : io str := λ w,
  let out := w_stdout w ++ [Prompted prompt] in
  match w_stdin w with
  | [] => Exn ExEOFError {| w_stdin := []; w_stdout := out; w_puzzle := w_puzzle w |}
  | line :: rest => Ok line {| w_stdin := rest; w_stdout := out; w_puzzle := w_puzzle w |}
  end.

(** [int(s)]. *)
Definition int_of (py : builtins) (s : str) : io Z :=
  match py_int py s with
  | Some n => mret n
  | None => raise ExValueError
  end.

(** [try: body except ValueError: handler]. *)
Definition try_except_ValueError {A : Type} (body handler : io A) : io A := λ w,
  match body w with
  | Exn ExValueError w' => handler w'
  | r => r
  end.

Definition get_puzzle : io grid := λ w, Ok (w_puzzle w) w.

(** [puzzle[row][col] = num], for indices that are not negative. *)
Definition assign (row col : nat) (num : Z) : io unit := λ w,
  match w_puzzle w !! row with
  | Some rw =>
      if decide (col < length rw)
      then Ok tt {| w_stdin := w_stdin w; w_stdout := w_stdout w;
                    w_puzzle := <[row := <[col := num]> rw]> (w_puzzle w) |}
      else Exn ExIndexError w
  | None => Exn ExIndexError w
  end.

Definition get_user_input (py : builtins) : io str :=
  print (codes "Options:");;
  print (codes "1. Fill/modify a cell");;
  print (codes "2. Solve automatically");;
  print (codes "3. Exit");;
  line ← input (codes "Choose an option (1-3): ");
  mret (py_strip py line).

(** The branch [choice == "1"] of [main]. *)
Definition edit_cell (py : builtins) : io unit :=
  try_except_ValueError
    (s ← input (codes "Enter row (1-9): ");
     n ← int_of py s;
     let row := (n - 1)%Z in
     s ← input (codes "Enter column (1-9): ");
     n ← int_of py s;
     let col := (n - 1)%Z in
     s ← input (codes "Enter number (0-9, 0 for empty): ");
     num ← int_of py s;
     if decide ((0 ≤ row < 9)%Z ∧ (0 ≤ col < 9)%Z ∧ (0 ≤ num ≤ 9)%Z) then
       assign (Z.to_nat row) (Z.to_nat col) num;;
       print (newline ++ codes "Updated Grid:");;
       puzzle ← get_puzzle;
       print_all (display_grid puzzle)
     else
       print (codes "Invalid input! Use values 1-9 for position and 0-9 for number."))
    (print (codes "Invalid input! Please enter numbers only.")).

(** The branch [choice == "2"] of [main], before its [break]: the solver
    works on its own copy of [puzzle]. *)
Definition solve_and_show (fuel : nat) : io unit :=
  print (newline ++ codes "Solving using CSP with Backtracking + MRV..." ++ newline);;
  puzzle ← get_puzzle;
  match run (solve fuel) puzzle with
  | Done (true, solved, _) =>
      print (check_mark ++ codes " Solved using CSP!");;
      print_all (display_grid solved)
  | Done (false, _, _) =>
      print (ballot_x ++ codes " No solution exists for this puzzle.")
  | IndexError => raise ExIndexError
  | OutOfFuel => raise ExBudget
  end.

(** The loop [while True] of [main], for at most [n] iterations. *)
Fixpoint main_loop (py : builtins) (fuel n : nat) : io unit :=
  match n with
  | O => raise ExBudget
  | S n' =>
      choice ← get_user_input py;
      if decide (choice = codes "1") then
        edit_cell py;;
        main_loop py fuel n'
      else if decide (choice = codes "2") then
        solve_and_show fuel
      else if decide (choice = codes "3") then
        print (codes "Thanks for playing!")
      else
        print (codes "Invalid choice! Please select 1, 2, or 3.");;
        main_loop py fuel n'
  end.

(** [main()], given the lines typed by the user: an iteration of the loop
    reads at least one line, so one iteration more than there are lines is
    budget enough. *)
Definition main (py : builtins) (fuel : nat) (stdin : list str) : io_result unit :=
  (print (times (codes "=") 25);;
   print (codes "  SUDOKU SOLVER (CSP)");;
   print (times (codes "=") 25);;
   print (newline ++ codes "Initial Puzzle:");;
   print_all (display_grid puzzle);;
   main_loop py fuel (S (length stdin)))
  {| w_stdin := stdin; w_stdout := []; w_puzzle := puzzle |}.

(** Built-ins for typed lines made of ASCII decimal digits: [strip] finds
    nothing to remove, [int] reads a decimal numeral with an optional
    minus sign and rejects anything else. *)
Definition plain_builtins : builtins := {|
  py_strip := λ s, s;
  py_int := λ s,
    Z.of_int <$> DecimalString.NilZero.int_of_string
                   (String.string_of_list_ascii (Ascii.ascii_of_N <$> s))
|}.

(** The puzzle of a session is a 9x9 grid of values 0..9. *)
Definition session_ok (w : world) : Prop :=
  wf_grid (w_puzzle w) ∧ in_range (w_puzzle w).

(** The three prompts of the branch [choice == "1"]. *)
Definition edit_prompts : list output :=
  [ Prompted (codes "Enter row (1-9): ");
    Prompted (codes "Enter column (1-9): ");
    Prompted (codes "Enter number (0-9, 0 for empty): ") ].

(** What [get_user_input] writes. *)
Definition menu : list output :=
  [ Printed (codes "Options:");
    Printed (codes "1. Fill/modify a cell");
    Printed (codes "2. Solve automatically");
    Printed (codes "3. Exit");
    Prompted (codes "Choose an option (1-3): ") ].

(** How a session may end without a defect: [main] returns, or the user
    closes standard input while a line is awaited. *)
Definition ends_well {A : Type} (r : io_result A) : Prop :=
  match r with
  | Ok _ w => session_ok w
  | Exn e w => e = ExEOFError ∧ w_stdin w = [] ∧ session_ok w
  end.

(** * Part II: lemmas *)

(** ** Reasoning about [run] *)

Lemma then_run_log_cons {A B : Type} e (o : outcome (A * grid * list event))
    (f : A → grid → outcome (B * grid * list event)) :
  then_run (log_cons e o) f = log_cons e (then_run o f).
Proof.
  destruct o as [[[a g] log]| |]; simpl; try done.
  by destruct (f a g) as [[[b g'] log']| |].
Qed.

Lemma run_bind {A B : Type} (p : prog A) (f : A → prog B) g :
  run (p ≫= f) g = then_run (run p g) (λ a g', run (f a) g').
Proof.
  revert g. induction p as [a|row k IH|row col num k IH|depth k IH| |]; intros g.
  - simpl. change (run (f a) g = then_run (Done (a, g, [])) (λ a g', run (f a) g')).
    simpl. by destruct (run (f a) g) as [[[b g'] log']| |].
  - change (run (GetRow row (λ rw, k rw ≫= f)) g = then_run (run (GetRow row k) g) (λ a g', run (f a) g')).
    simpl. destruct (g !! row); [apply IH | done].
  - change (run (SetCell row col num (k ≫= f)) g = then_run (run (SetCell row col num k) g) (λ a g', run (f a) g')).
    simpl. destruct (g !! row); [|done]. case_decide; [|done].
    by rewrite IH, then_run_log_cons.
  - change (run (Enter depth (k ≫= f)) g = then_run (run (Enter depth k) g) (λ a g', run (f a) g')).
    simpl. by rewrite IH, then_run_log_cons.
  - done.
  - done.
Qed.

Lemma reads_bind {A B : Type} (p : prog A) (f : A → prog B) g a :
  reads p g a → run (p ≫= f) g = run (f a) g.
Proof.
  unfold reads. intros Hp. rewrite run_bind, Hp. simpl.
  by destruct (run (f a) g) as [[[b g'] log']| |].
Qed.

Lemma reads_ret {A : Type} (a : A) g : reads (mret a) g a.
Proof. done. Qed.

Lemma reads_inj {A : Type} (p : prog A) g a b : reads p g a → reads p g b → a = b.
Proof. unfold reads. congruence. Qed.

(** ** Grids *)

Lemma wf_row g r : wf_grid g → r < 9 → g !! r = Some (g !!! r) ∧ length (g !!! r) = 9.
Proof.
  intros [Hlen Hrows] Hr.
  assert (g !! r = Some (g !!! r)) as Hlk
    by (apply list_lookup_lookup_total_lt; unfold size in Hlen; lia).
  split; [done|]. by eapply (Forall_lookup_1 _ _ _ _ Hrows Hlk).
Qed.

Lemma wf_cell g r c : wf_grid g → r < 9 → c < 9 → (g !!! r) !! c = Some (cell g r c).
Proof.
  intros Hwf Hr Hc. destruct (wf_row g r Hwf Hr) as [_ Hlen].
  apply list_lookup_lookup_total_lt. lia.
Qed.

Lemma wf_put g r c v : wf_grid g → wf_grid (put g r c v).
Proof.
  intros [Hlen Hrows]. split.
  - unfold put. by rewrite length_insert.
  - unfold put. destruct (decide (r < length g)) as [Hr|Hr].
    + apply Forall_insert; [done|]. rewrite length_insert.
      assert (g !! r = Some (g !!! r)) as Hlk by by apply list_lookup_lookup_total_lt.
      by eapply (Forall_lookup_1 _ _ _ _ Hrows Hlk).
    + rewrite list_insert_ge by lia. done.
Qed.

Lemma cell_put_eq g r c v : wf_grid g → r < 9 → c < 9 → cell (put g r c v) r c = v.
Proof.
  intros Hwf Hr Hc. destruct (wf_row g r Hwf Hr) as [_ Hlen].
  destruct Hwf as [Hg _]. unfold size in Hg. unfold cell, put.
  rewrite list_lookup_total_insert_eq by lia.
  rewrite list_lookup_total_insert_eq by lia. done.
Qed.

Lemma cell_put_ne g r c v r' c' : (r', c') ≠ (r, c) → cell (put g r c v) r' c' = cell g r' c'.
Proof.
  intros Hne. unfold cell, put.
  destruct (decide (r' = r)) as [->|Hr].
  - destruct (decide (r < length g)) as [Hlt|Hge].
    + rewrite list_lookup_total_insert_eq by done.
      rewrite list_lookup_total_insert_ne; [done|]. congruence.
    + rewrite list_insert_ge by lia. done.
  - rewrite list_lookup_total_insert_ne by done. done.
Qed.

Lemma put_undo g r c v : wf_grid g → r < 9 → cell g r c = 0%Z → put (put g r c v) r c 0 = g.
Proof.
  intros Hwf Hr Hc. destruct (wf_row g r Hwf Hr) as [Hlk Hlen].
  destruct Hwf as [Hg _]. unfold size in Hg. unfold put.
  rewrite list_lookup_total_insert_eq by lia.
  rewrite list_insert_insert_eq, list_insert_insert_eq.
  apply list_insert_id. rewrite Hlk. f_equal. symmetry.
  destruct (decide (c < length (g !!! r))) as [Hlt|Hge].
  - apply list_insert_id. rewrite <- Hc. unfold cell.
    by apply list_lookup_lookup_total_lt.
  - apply list_insert_ge. lia.
Qed.

(** ** The memory operations on a well-formed grid *)

Lemma reads_get_row g r : wf_grid g → r < 9 → reads (get_row r) g (g !!! r).
Proof.
  intros Hwf Hr. destruct (wf_row g r Hwf Hr) as [Hlk _].
  unfold reads, get_row. simpl. by rewrite Hlk.
Qed.

Lemma reads_get_cell g r c : wf_grid g → r < 9 → c < 9 → reads (get_cell r c) g (cell g r c).
Proof.
  intros Hwf Hr Hc. unfold get_cell, reads.
  rewrite (reads_bind _ _ _ _ (reads_get_row g r Hwf Hr)).
  by rewrite (wf_cell g r c Hwf Hr Hc).
Qed.

Lemma run_set_cell g r c v :
  wf_grid g → r < 9 → c < 9 →
  run (set_cell r c v) g = Done (tt, put g r c v, [EvWrite r c v (put g r c v)]).
Proof.
  intros Hwf Hr Hc. destruct (wf_row g r Hwf Hr) as [Hlk Hlen].
  unfold set_cell. simpl. rewrite Hlk. rewrite decide_True by lia. done.
Qed.

Lemma run_enter g d : run (enter d) g = Done (tt, g, [EvEnter d g]).
Proof. done. Qed.

(** ** Loops that only read *)

Lemma reads_for_list {A B : Type} (xs : list A) (body : A → prog B) (R : A → B → Prop) g :
  (∀ x, x ∈ xs → ∃ y, reads (body x) g y ∧ R x y) →
  ∃ ys, reads (for_list xs body) g ys ∧ Forall2 R xs ys.
Proof.
  induction xs as [|x xs IH]; intros Hbody.
  - exists []. split; [done | constructor].
  - destruct (Hbody x) as (y & Hy & HR); [left|].
    destruct IH as (ys & Hys & HRs); [intros x' Hx'; apply Hbody; by right|].
    exists (y :: ys). split; [|by constructor].
    unfold reads. simpl. rewrite (reads_bind _ _ _ _ Hy).
    by rewrite (reads_bind _ _ _ _ Hys).
Qed.

Lemma reads_for_list_fmap {A B : Type} (xs : list A) (body : A → prog B) (f : A → B) g :
  (∀ x, x ∈ xs → reads (body x) g (f x)) → reads (for_list xs body) g (f <$> xs).
Proof.
  intros Hbody.
  destruct (reads_for_list xs body (λ x y, y = f x) g) as (ys & Hys & HR).
  { intros x Hx. exists (f x). split; [by apply Hbody | done]. }
  replace (f <$> xs) with ys; [done|].
  clear Hys Hbody. induction HR as [|x y xs ys -> _ IH]; [done|]. simpl. by rewrite IH.
Qed.

(** A scan that returns [False] at the first element satisfying [P] and
    falls through when there is none. *)
Lemma reads_for_return_scan {A : Type} (xs : list A) (body : A → prog (option bool))
    (P : A → Prop) g :
  (∀ x, x ∈ xs → ∃ r, reads (body x) g r ∧ (r = Some false ∧ P x ∨ r = None ∧ ¬ P x)) →
  ∃ r, reads (for_return xs body) g r ∧
       (r = Some false ∧ (∃ x, x ∈ xs ∧ P x) ∨ r = None ∧ ∀ x, x ∈ xs → ¬ P x).
Proof.
  induction xs as [|x xs IH]; intros Hbody.
  - exists None. split; [done|]. right. split; [done|]. intros x Hx. by apply not_elem_of_nil in Hx.
  - destruct (Hbody x) as (r & Hr & Hcase); [left|].
    destruct Hcase as [[-> HP]|[-> HP]].
    + exists (Some false). split.
      * unfold reads. simpl. by rewrite (reads_bind _ _ _ _ Hr).
      * left. split; [done|]. exists x. split; [left | done].
    + destruct IH as (r & Hrs & Hcase); [intros x' Hx'; apply Hbody; by right|].
      exists r. split.
      * unfold reads. simpl. by rewrite (reads_bind _ _ _ _ Hr).
      * destruct Hcase as [[-> (x' & Hx' & HP')]|[-> Hnone]].
        -- left. split; [done|]. exists x'. split; [by right | done].
        -- right. split; [done|]. intros x' Hx'.
           apply elem_of_cons in Hx' as [->|Hx']; [done | by apply Hnone].
Qed.

(** ** [is_valid] *)

Lemma box_origin_bound r i : r < 9 → i < 3 → r / 3 * 3 + i < 9.
Proof.
  intros Hr Hi.
  assert (r / 3 < 3) by (apply Nat.Div0.div_lt_upper_bound; lia).
  lia.
Qed.

Lemma is_valid_reads g row col num :
  wf_grid g → row < 9 → col < 9 →
  ∃ b, reads (is_valid row col num) g b ∧ (b = true ↔ no_conflict g row col num).
Proof.
  intros Hwf Hrow Hcol. unfold is_valid.
  destruct (wf_row g row Hwf Hrow) as [_ Hlen].
  unfold reads. rewrite (reads_bind _ _ _ _ (reads_get_row g row Hwf Hrow)).
  case_decide as Hinrow.
  { exists false. split; [done|]. split; [done|]. intros (Hr & _ & _).
    apply list_elem_of_lookup in Hinrow as [c Hc].
    assert (c < 9) by (apply lookup_lt_Some in Hc; lia).
    exfalso. apply (Hr c); [done|]. unfold cell.
    by apply list_lookup_total_correct. }
  assert (reads (for_list (seq 0 size) (λ r, get_cell r col)) g
            ((λ r, cell g r col) <$> seq 0 size)) as Hcolumn.
  { apply reads_for_list_fmap. intros r Hr. apply elem_of_seq in Hr.
    unfold size in Hr. apply reads_get_cell; [done | lia | done]. }
  rewrite (reads_bind _ _ _ _ Hcolumn).
  case_decide as Hincol.
  { exists false. split; [done|]. split; [done|]. intros (_ & Hc & _).
    apply list_elem_of_fmap in Hincol as (r & -> & Hr).
    apply elem_of_seq in Hr. unfold size in Hr. exfalso. apply (Hc r); [lia | done]. }
  destruct (reads_for_return_scan (seq (row / 3 * 3) 3)
    (λ r, for_return (seq (col / 3 * 3) 3) (λ c,
       v ← get_cell r c;
       if decide (v = num) then mret (Some false) else mret None))
    (λ r, ∃ c, c ∈ seq (col / 3 * 3) 3 ∧ cell g r c = num) g) as (found & Hfound & Hcase).
  { intros r Hr. apply elem_of_seq in Hr.
    assert (r < 9) by (pose proof (box_origin_bound row 2 Hrow); lia).
    destruct (reads_for_return_scan (seq (col / 3 * 3) 3)
      (λ c, v ← get_cell r c;
            if decide (v = num) then mret (Some false) else mret None)
      (λ c, cell g r c = num) g) as (res & Hres & Hc).
    { intros c Hc. apply elem_of_seq in Hc.
      assert (c < 9) by (pose proof (box_origin_bound col 2 Hcol); lia).
      destruct (decide (cell g r c = num)) as [Heq|Hne].
      - exists (Some false). split; [|by left]. unfold reads.
        rewrite (reads_bind _ _ _ _ (reads_get_cell g r c Hwf ltac:(done) ltac:(done))).
        by rewrite decide_True.
      - exists None. split; [|by right]. unfold reads.
        rewrite (reads_bind _ _ _ _ (reads_get_cell g r c Hwf ltac:(done) ltac:(done))).
        by rewrite decide_False. }
    exists res. split; [done|]. destruct Hc as [[-> Hex]|[-> Hall]].
    - by left.
    - right. split; [done|]. intros (c & Hc & Heq). by apply (Hall c). }
  rewrite (reads_bind _ _ _ _ Hfound).
  destruct Hcase as [[-> (r & Hr & c & Hc & Heq)]|[-> Hnone]].
  - exists false. split; [done|]. split; [done|]. intros (_ & _ & Hbox).
    apply elem_of_seq in Hr. apply elem_of_seq in Hc. exfalso.
    apply (Hbox (r - row / 3 * 3) (c - col / 3 * 3)); [lia | lia |].
    rewrite <- Heq. f_equal; lia.
  - exists true. split; [done|]. split; [|done]. intros _.
    split; [|split].
    + intros c Hc Heq. apply Hinrow. rewrite <- Heq. unfold cell.
      apply list_elem_of_lookup_total_2. lia.
    + intros r Hr Heq. apply Hincol. rewrite <- Heq.
      apply list_elem_of_fmap. exists r. split; [done|].
      apply elem_of_seq. unfold size. lia.
    + intros i j Hi Hj Heq.
      apply (Hnone (row / 3 * 3 + i)); [apply elem_of_seq; lia|].
      exists (col / 3 * 3 + j). split; [apply elem_of_seq; lia | done].
Qed.

(** ** [get_domain] *)

Lemma flags_domain (P : Z → Prop) (xs : list Z) (flags : list (Z * bool)) :
  Forall2 (λ n x, x.1 = n ∧ (x.2 = true ↔ P n)) xs flags →
  StronglySorted Z.lt xs →
  (∀ n, n ∈ fst <$> filter (λ x, x.2 = true) flags ↔ n ∈ xs ∧ P n) ∧
  StronglySorted Z.lt (fst <$> filter (λ x, x.2 = true) flags) ∧
  length (fst <$> filter (λ x, x.2 = true) flags) ≤ length xs.
Proof.
  induction 1 as [|n [n' ok] xs flags [Hn Hok] _ IH]; intros Hsorted.
  - split; [|split; [constructor | done]].
    intros n. split; [intros Hn; by apply not_elem_of_nil in Hn|].
    intros [Hn _]. by apply not_elem_of_nil in Hn.
  - simpl in Hn, Hok. subst n'.
    apply StronglySorted_inv in Hsorted as [Hsorted Hhd].
    destruct (IH Hsorted) as (Hmem & Hs & Hlen).
    rewrite filter_cons. cbn [snd]. destruct (decide (ok = true)) as [Hyes|Hno].
    + rewrite fmap_cons. cbn [fst length]. split; [|split; [|lia]].
      * intros m. rewrite !elem_of_cons, Hmem. split.
        -- intros [->|[Hm HP]]; [split; [by left | by apply Hok] | by split; [right|]].
        -- intros [[->|Hm] HP]; [by left | by right].
      * constructor; [done|]. apply Forall_forall. intros m Hm.
        apply Hmem in Hm as [Hm _]. rewrite Forall_forall in Hhd. by apply Hhd.
    + cbn [length]. split; [|split; [done | lia]].
      intros m. rewrite elem_of_cons, Hmem. split.
      * intros [Hm HP]. by split; [right|].
      * intros [[->|Hm] HP]; [|done]. exfalso. apply Hno. by apply Hok.
Qed.

Lemma digits_sorted : StronglySorted Z.lt (seqZ 1 9).
Proof.
  change (seqZ 1 9) with [1; 2; 3; 4; 5; 6; 7; 8; 9]%Z.
  repeat (constructor; [|repeat (constructor; [lia|]); constructor]). constructor.
Qed.

Lemma get_domain_filled g row col :
  wf_grid g → row < 9 → col < 9 → cell g row col ≠ 0%Z →
  reads (get_domain row col) g [].
Proof.
  intros Hwf Hrow Hcol Hfilled. unfold get_domain, reads.
  rewrite (reads_bind _ _ _ _ (reads_get_cell g row col Hwf Hrow Hcol)).
  by rewrite decide_True.
Qed.

Lemma get_domain_empty g row col :
  wf_grid g → row < 9 → col < 9 → cell g row col = 0%Z →
  ∃ domain, reads (get_domain row col) g domain ∧
    (∀ n, n ∈ domain ↔ (1 ≤ n ≤ 9)%Z ∧ no_conflict g row col n) ∧
    StronglySorted Z.lt domain ∧ length domain ≤ 9.
Proof.
  intros Hwf Hrow Hcol Hempty.
  destruct (reads_for_list (seqZ 1 9)
    (λ num, ok ← is_valid row col num; mret (num, ok))
    (λ n x, x.1 = n ∧ (x.2 = true ↔ no_conflict g row col n)) g) as (flags & Hflags & HR).
  { intros n _. destruct (is_valid_reads g row col n Hwf Hrow Hcol) as (b & Hb & Hiff).
    exists (n, b). split; [|done]. unfold reads. by rewrite (reads_bind _ _ _ _ Hb). }
  destruct (flags_domain _ _ _ HR digits_sorted) as (Hmem & Hsorted & Hlen).
  exists (fst <$> filter (λ x, x.2 = true) flags). split; [|split; [|done]].
  - unfold get_domain, reads.
    rewrite (reads_bind _ _ _ _ (reads_get_cell g row col Hwf Hrow Hcol)).
    rewrite decide_False by (intros Hne; by apply Hne).
    by rewrite (reads_bind _ _ _ _ Hflags).
  - intros n. rewrite Hmem, elem_of_seqZ. split; intros [Hn HP]; (split; [lia | done]).
Qed.

(** ** [find_mrv_cell] *)

Lemma reads_for_fold {A St : Type} (xs : list A) (body : St → A → prog St)
    (I : nat → St → Prop) g st :
  (∀ i x st, xs !! i = Some x → I i st → ∃ st', reads (body st x) g st' ∧ I (S i) st') →
  I 0 st →
  ∃ st', reads (for_fold xs body st) g st' ∧ I (length xs) st'.
Proof.
  revert I st. induction xs as [|x xs IH]; intros I st Hstep Hinit.
  - exists st. by split.
  - destruct (Hstep 0 x st) as (st1 & Hst1 & HI1); [done | done |].
    destruct (IH (λ i, I (S i)) st1) as (st' & Hst' & HI').
    { intros i y st2 Hy. by apply (Hstep (S i)). }
    { done. }
    exists st'. split; [|done]. unfold reads. simpl.
    by rewrite (reads_bind _ _ _ _ Hst1).
Qed.

Lemma mrv_inv_visit g R C st :
  wf_grid g → R < 9 → C < 9 → mrv_inv g R C st →
  ∃ st', reads (let '(min_domain_size, best_cell) := st in
                v ← get_cell R C;
                if decide (v = 0%Z) then
                  domain ← get_domain R C;
                  if decide (length domain < min_domain_size)
                  then mret (length domain, Some (R, C, domain))
                  else mret (min_domain_size, best_cell)
                else mret (min_domain_size, best_cell)) g st' ∧
         mrv_inv g R (S C) st'.
Proof.
  intros Hwf HR HC Hinv. destruct st as [min_size best].
  unfold reads. rewrite (reads_bind _ _ _ _ (reads_get_cell g R C Hwf HR HC)).
  case_decide as Hcell.
  - destruct (get_domain_empty g R C Hwf HR HC Hcell) as (domain & Hdom & _ & _ & Hlen).
    rewrite (reads_bind _ _ _ _ Hdom). case_decide as Hlt.
    + eexists. split; [done|]. unfold mrv_inv. simpl.
      split_and!; try done; try (unfold scanned_before; lia).
      intros r' c' domain' Hc' Hbefore Hempty Hdom'.
      destruct (decide (r' = R ∧ c' = C)) as [[-> ->]|Hother].
      { rewrite (reads_inj _ _ _ _ Hdom' Hdom). unfold scanned_before. lia. }
      assert (scanned_before r' c' R C) as Hold by (unfold scanned_before in *; lia).
      unfold mrv_inv in Hinv. simpl in Hinv.
      destruct best as [[[r0 c0] domain0]|].
      * destruct Hinv as (_ & _ & _ & _ & _ & -> & Hmin).
        destruct (Hmin r' c' domain' Hc' Hold Hempty Hdom') as [Hle _]. lia.
      * destruct Hinv as [_ Hnone]. by apply Hnone in Hold.
    + eexists. split; [done|]. unfold mrv_inv in *. simpl in *.
      destruct best as [[[r0 c0] domain0]|]; [|lia].
      destruct Hinv as (Hr0 & Hc0 & Hb0 & He0 & Hd0 & -> & Hmin).
      split_and!; try done; try (unfold scanned_before in *; lia).
      intros r' c' domain' Hc' Hbefore Hempty Hdom'.
      destruct (decide (r' = R ∧ c' = C)) as [[-> ->]|Hother].
      { rewrite (reads_inj _ _ _ _ Hdom' Hdom). unfold scanned_before in *. lia. }
      assert (scanned_before r' c' R C) as Hold by (unfold scanned_before in *; lia).
      by apply Hmin.
  - eexists. split; [done|]. unfold mrv_inv in *. simpl in *.
    destruct best as [[[r0 c0] domain0]|].
    + destruct Hinv as (Hr0 & Hc0 & Hb0 & He0 & Hd0 & -> & Hmin).
      split_and!; try done; try (unfold scanned_before in *; lia).
      intros r' c' domain' Hc' Hbefore Hempty Hdom'.
      destruct (decide (r' = R ∧ c' = C)) as [[-> ->]|Hother]; [done|].
      assert (scanned_before r' c' R C) as Hold by (unfold scanned_before in *; lia).
      by apply Hmin.
    + destruct Hinv as [-> Hnone]. split; [done|].
      intros r c Hc Hbefore.
      destruct (decide (r = R ∧ c = C)) as [[-> ->]|Hother]; [done|].
      apply Hnone; [done|]. unfold scanned_before in *. lia.
Qed.

Lemma find_mrv_cell_reads g :
  wf_grid g → ∃ res, reads find_mrv_cell g res ∧ mrv_spec g res.
Proof.
  intros Hwf. unfold find_mrv_cell.
  match goal with
  | |- context [for_fold (seq 0 size) ?body ?init] =>
      destruct (reads_for_fold (seq 0 size) body (λ R, mrv_inv g R 0) g init)
        as (st & Hst & Hinv)
  end.
  { intros R x st HR Hinv. apply lookup_seq in HR as [-> HR]. unfold size in HR.
    change (0 + R) with R. cbv beta.
    match goal with
    | |- context [for_fold (seq 0 size) ?body st] =>
        destruct (reads_for_fold (seq 0 size) body (λ C, mrv_inv g R C) g st)
          as (st' & Hst' & Hinv')
    end.
    { intros C x st1 HC Hinv1. apply lookup_seq in HC as [-> HC]. unfold size in HC.
      change (0 + C) with C. destruct st1 as [min_size best].
      by apply (mrv_inv_visit g R C (min_size, best)). }
    { done. }
    exists st'. split; [done|]. rewrite length_seq in Hinv'. unfold size in Hinv'.
    unfold mrv_inv in *. destruct (st'.2) as [[[r c] domain]|].
    - destruct Hinv' as (Hr & Hc & Hb & He & Hd & Hm & Hmin).
      split_and!; try done; try (unfold scanned_before in *; lia).
      intros r' c' domain' Hc' Hbefore Hempty Hdom'.
      assert (scanned_before r' c' R 9) as Hold by (unfold scanned_before in *; lia).
      by apply Hmin.
    - destruct Hinv' as [Hm Hnone]. split; [done|]. intros r c Hc Hbefore.
      apply Hnone; [done|]. unfold scanned_before in *. lia. }
  { split; [done|]. intros r c _ Hbefore. unfold scanned_before in Hbefore. lia. }
  exists (st.2). split.
  - unfold reads. by rewrite (reads_bind _ _ _ _ Hst).
  - rewrite length_seq in Hinv. unfold size in Hinv. unfold mrv_inv in Hinv.
    unfold mrv_spec. destruct (st.2) as [[[r c] domain]|].
    + destruct Hinv as (Hr & Hc & Hb & He & Hd & Hm & Hmin).
      split_and!; try done.
      intros r' c' domain' Hr' Hc' Hempty Hdom'.
      assert (scanned_before r' c' 9 0) as Hold by (unfold scanned_before; lia).
      by apply Hmin.
    + destruct Hinv as [_ Hnone]. intros r c Hr Hc. apply Hnone; [done|].
      unfold scanned_before. lia.
Qed.

(** ** Empty cells and legal placements *)

Lemma coords_spec r c : (r, c) ∈ coords ↔ r < 9 ∧ c < 9.
Proof.
  unfold coords. rewrite list_elem_of_cprod, !elem_of_seq. unfold size. simpl. lia.
Qed.

Lemma coords_NoDup : NoDup coords.
Proof. apply (bool_decide_unpack (NoDup coords)). by vm_compute. Qed.

Lemma count_empty_le g : count_empty g ≤ 81.
Proof. unfold count_empty. etrans; [apply length_filter|]. done. Qed.

Lemma filter_ext_in {A : Type} (P Q : A → Prop)
    `{!∀ x, Decision (P x)} `{!∀ x, Decision (Q x)} (l : list A) :
  (∀ x, x ∈ l → (P x ↔ Q x)) → filter P l = filter Q l.
Proof.
  induction l as [|y l IH]; intros Hiff; [done|].
  assert (filter P l = filter Q l) as Htl
    by (apply IH; intros x Hx; apply Hiff; by right).
  assert (P y ↔ Q y) as Hy by (apply Hiff; left).
  destruct (decide (P y)) as [HPy|HPy].
  - rewrite (filter_cons_True P), (filter_cons_True Q) by tauto. by rewrite Htl.
  - rewrite (filter_cons_False P), (filter_cons_False Q) by tauto. done.
Qed.

Lemma filter_none {A : Type} (P : A → Prop) `{!∀ x, Decision (P x)} (l : list A) :
  (∀ x, x ∈ l → ¬ P x) → filter P l = [].
Proof.
  induction l as [|y l IH]; intros Hnone; [done|].
  rewrite filter_cons_False by (apply Hnone; left).
  apply IH. intros x Hx. apply Hnone. by right.
Qed.

Lemma length_filter_flip {A : Type} (P Q : A → Prop)
    `{!∀ x, Decision (P x)} `{!∀ x, Decision (Q x)} (l : list A) (x : A) :
  NoDup l → x ∈ l → P x → ¬ Q x → (∀ y, y ≠ x → (P y ↔ Q y)) →
  length (filter P l) = S (length (filter Q l)).
Proof.
  intros Hnd Hx HP HQ Hiff. induction Hnd as [|y l Hy Hnd IH].
  - by apply not_elem_of_nil in Hx.
  - apply elem_of_cons in Hx as [<-|Hx].
    + rewrite (filter_cons_True P), (filter_cons_False Q) by done. simpl. f_equal.
      f_equal. apply filter_ext_in. intros z Hz. apply Hiff. by intros ->.
    + assert (y ≠ x) as Hne by by intros ->.
      assert (P y ↔ Q y) as Hiffy by by apply Hiff.
      destruct (decide (P y)) as [HPy|HPy].
      * rewrite (filter_cons_True P), (filter_cons_True Q) by tauto.
        simpl. f_equal. by apply IH.
      * rewrite (filter_cons_False P), (filter_cons_False Q) by tauto.
        by apply IH.
Qed.

Lemma count_empty_put g r c v :
  wf_grid g → r < 9 → c < 9 → cell g r c = 0%Z → v ≠ 0%Z →
  count_empty g = S (count_empty (put g r c v)).
Proof.
  intros Hwf Hr Hc Hempty Hv. unfold count_empty.
  apply (length_filter_flip _ _ coords (r, c)).
  - apply coords_NoDup.
  - by apply coords_spec.
  - done.
  - simpl. by rewrite cell_put_eq.
  - intros [r' c'] Hne. simpl. by rewrite cell_put_ne.
Qed.

Lemma full_count_empty g : full g → count_empty g = 0.
Proof.
  intros Hfull. unfold count_empty.
  rewrite filter_none; [done|].
  intros [r c] Hin. apply coords_spec in Hin as [Hr Hc]. simpl. by apply Hfull.
Qed.

(** ** [solve]: the search *)

Lemma run_attempt f d r c num g :
  wf_grid g → r < 9 → c < 9 →
  run (attempt f d r c num) g =
    match run (solve_at f (S d)) (put g r c num) with
    | Done (true, g2, log2) =>
        Done (Some true, g2, EvWrite r c num (put g r c num) :: log2)
    | Done (false, g2, log2) =>
        match run (set_cell r c 0%Z) g2 with
        | Done (_, g3, log3) =>
            Done (None, g3, EvWrite r c num (put g r c num) :: log2 ++ log3)
        | IndexError => IndexError
        | OutOfFuel => OutOfFuel
        end
    | IndexError => IndexError
    | OutOfFuel => OutOfFuel
    end.
Proof.
  intros Hwf Hr Hc. unfold attempt.
  rewrite run_bind, (run_set_cell g r c num Hwf Hr Hc). cbn [then_run].
  rewrite run_bind.
  destruct (run (solve_at f (S d)) (put g r c num)) as [[[[|] g2] log2]| |];
    cbn [then_run]; try done.
  - simpl. by rewrite app_nil_r.
  - rewrite run_bind.
    destruct (run (set_cell r c 0%Z) g2) as [[[[] g3] log3]| |]; cbn [then_run]; try done.
    simpl. by rewrite app_nil_r.
Qed.

Lemma reach_step_left g r c v g' :
  r < 9 → c < 9 → cell g r c = 0%Z → (1 ≤ v ≤ 9)%Z → no_conflict g r c v →
  (∃ n, reach n (put g r c v) g') → ∃ n, reach n g g'.
Proof.
  intros Hr Hc Hempty Hv Hok [m Hreach]. exists (S m).
  exact (reach_place m g r c v g' Hr Hc Hempty Hv Hok Hreach).
Qed.

Lemma ev_ok_step g d r c v e :
  wf_grid g → r < 9 → c < 9 → cell g r c = 0%Z → (1 ≤ v ≤ 9)%Z → no_conflict g r c v →
  ev_ok (put g r c v) (S d) e → ev_ok g d e.
Proof.
  intros Hwf Hr Hc Hempty Hv Hok. destruct e as [d' g'|r' c' v' g']; simpl.
  - intros (n & -> & Hreach). exists (S n). split; [lia|].
    exact (reach_place n g r c v g' Hr Hc Hempty Hv Hok Hreach).
  - intros (Hr' & Hc' & Hcell & Hval & Hreach). split_and!; try done.
    + destruct (decide ((r', c') = (r, c))) as [[= -> ->]|Hne].
      * done.
      * rewrite cell_put_ne in Hcell by done. done.
    + exact (reach_step_left g r c v g' Hr Hc Hempty Hv Hok Hreach).
Qed.

Lemma attempts_spec f d g r c (domain : list Z) :
  solve_ok f →
  wf_grid g → r < 9 → c < 9 → cell g r c = 0%Z →
  (∀ n, n ∈ domain → (1 ≤ n ≤ 9)%Z ∧ no_conflict g r c n) →
  match run (for_return domain (attempt f d r c)) g with
  | Done (res, g', log) =>
      res ≠ Some false ∧ (res = None → g' = g) ∧ (res = Some true → full g') ∧
      (∃ n, reach n g g') ∧ Forall (ev_ok g d) log
  | IndexError => False
  | OutOfFuel => S f ≤ count_empty g
  end.
Proof.
  intros IHf Hwf Hr Hc Hempty. induction domain as [|num rest IH]; intros Hdom.
  - simpl. split_and!; try done. exists 0. constructor.
  - destruct (Hdom num) as [Hnum Hok]; [left|].
    assert (∀ n, n ∈ rest → (1 ≤ n ≤ 9)%Z ∧ no_conflict g r c n) as Hrest
      by (intros n Hn; apply Hdom; by right).
    specialize (IH Hrest).
    assert (wf_grid (put g r c num)) as Hwf1 by by apply wf_put.
    assert (count_empty g = S (count_empty (put g r c num))) as Hcount
      by (apply count_empty_put; try done; lia).
    cbn [for_return]. rewrite run_bind, run_attempt by done.
    specialize (IHf (S d) (put g r c num) Hwf1).
    destruct (run (solve_at f (S d)) (put g r c num)) as [[[[|] g2] log2]| |];
      cbn [then_run]; [| |done|lia].
    + destruct IHf as (_ & Hfull & Hreach & Hlog). simpl.
      split_and!; try done.
      * intros _. by apply Hfull.
      * exact (reach_step_left g r c num g2 Hr Hc Hempty Hnum Hok Hreach).
      * rewrite app_nil_r. constructor.
        -- simpl. split_and!; try done; [by apply cell_put_eq|]. exists 1.
           exact (reach_place 0 g r c num _ Hr Hc Hempty Hnum Hok (reach_here _)).
        -- eapply Forall_impl; [exact Hlog|]. intros e. by apply ev_ok_step.
    + destruct IHf as (Hsame & _ & _ & Hlog). rewrite (Hsame eq_refl).
      rewrite (run_set_cell _ r c 0%Z Hwf1 Hr Hc).
      rewrite (put_undo g r c num Hwf Hr Hempty).
      cbn [then_run].
      destruct (run (for_return rest (attempt f d r c)) g) as [[[res g4] log4]| |];
        [|done|done].
      destruct IH as (Hres & Hnone & Hsome & Hreach & Hlog4).
      split_and!; try done.
      rewrite <- app_comm_cons.
      constructor; [|rewrite <- app_assoc; apply Forall_app; split].
      * simpl. split_and!; try done; [by apply cell_put_eq|]. exists 1.
        exact (reach_place 0 g r c num _ Hr Hc Hempty Hnum Hok (reach_here _)).
      * eapply Forall_impl; [exact Hlog|]. intros e. by apply ev_ok_step.
      * constructor; [|done]. simpl. split_and!; try done. exists 0. constructor.
Qed.

Lemma solve_at_ok fuel : solve_ok fuel.
Proof.
  induction fuel as [|f IHf]; intros d g Hwf.
  - simpl. lia.
  - cbn [solve_at].
    rewrite run_bind, run_enter. cbn [then_run].
    destruct (find_mrv_cell_reads g Hwf) as (res & Hres & Hspec).
    rewrite (reads_bind _ _ _ _ Hres).
    assert (ev_ok g d (EvEnter d g)) as Henter
      by (exists 0; split; [lia | constructor]).
    destruct res as [[[r c] domain]|].
    + destruct Hspec as (Hr & Hc & Hempty & Hdomain & _).
      destruct (get_domain_empty g r c Hwf Hr Hc Hempty) as (domain' & Hdomain' & Hmem & _).
      rewrite <- (reads_inj _ _ _ _ Hdomain Hdomain') in Hmem.
      case_decide as Hnil.
      * simpl. split_and!; try done.
        -- exists 0. constructor.
        -- by constructor.
      * rewrite run_bind.
        assert (∀ n, n ∈ domain → (1 ≤ n ≤ 9)%Z ∧ no_conflict g r c n) as Hlegal
          by (intros n Hn; by apply Hmem).
        pose proof (attempts_spec f d g r c domain IHf Hwf Hr Hc Hempty Hlegal) as Hloop.
        change (λ num : Z, set_cell r c num;; solve_at f (S d) ≫= λ solved : bool,
                  if solved then mret (Some true)
                  else set_cell r c 0%Z;; mret None) with (attempt f d r c).
        destruct (run (for_return domain (attempt f d r c)) g) as [[[out g'] log]| |];
          cbn [then_run]; [|done|].
        -- destruct Hloop as (Hout & Hnone & Hsome & Hreach & Hlog).
           destruct out as [[|]|]; simpl; rewrite ?app_nil_r.
           ++ split_and!; try done. { intros _. by apply Hsome. } by constructor.
           ++ done.
           ++ split_and!; try done. { intros _. by apply Hnone. } by constructor.
        -- lia.
    + simpl. split_and!; try done.
      * exists 0. constructor.
      * by constructor.
Qed.

(** ** The uniqueness invariant and complete grids *)

Lemma box_member r r' : r' / 3 = r / 3 → ∃ i, i < 3 ∧ r' = r / 3 * 3 + i.
Proof.
  intros Heq. exists (r' mod 3). split; [apply Nat.mod_upper_bound; lia|].
  rewrite <- Heq. pose proof (Nat.div_mod_eq r' 3). lia.
Qed.

Lemma box_origin_div r i : i < 3 → (r / 3 * 3 + i) / 3 = r / 3.
Proof.
  intros Hi. rewrite Nat.add_comm, Nat.div_add by lia.
  rewrite Nat.div_small by lia. done.
Qed.

Lemma no_conflict_unit g r c v r' c' :
  no_conflict g r c v → r' < 9 → c' < 9 → same_unit r c r' c' → cell g r' c' ≠ v.
Proof.
  intros (Hrow & Hcol & Hbox) Hr' Hc' [->|[->|[Hbr Hbc]]].
  - by apply Hrow.
  - by apply Hcol.
  - destruct (box_member r r') as (i & Hi & ->); [done|].
    destruct (box_member c c') as (j & Hj & ->); [done|].
    by apply Hbox.
Qed.

Lemma same_unit_sym r c r' c' : same_unit r c r' c' → same_unit r' c' r c.
Proof. unfold same_unit. intros [?|[?|[? ?]]]; auto. Qed.

Lemma consistent_put g r c v :
  wf_grid g → r < 9 → c < 9 → v ≠ 0%Z → no_conflict g r c v →
  consistent g → consistent (put g r c v).
Proof.
  intros Hwf Hr Hc Hv Hok Hcons r1 c1 r2 c2 Hr1 Hc1 Hr2 Hc2 Hunit Hnz Heq.
  destruct (decide ((r1, c1) = (r, c))) as [[= -> ->]|Hne1];
    destruct (decide ((r2, c2) = (r, c))) as [[= -> ->]|Hne2].
  - done.
  - rewrite cell_put_eq in Heq by done. rewrite cell_put_ne in Heq by done.
    exfalso. by apply (no_conflict_unit g r c v r2 c2 Hok Hr2 Hc2 Hunit).
  - rewrite cell_put_eq in Heq by done. rewrite cell_put_ne in Heq by done.
    exfalso.
    by apply (no_conflict_unit g r c v r1 c1 Hok Hr1 Hc1 (same_unit_sym _ _ _ _ Hunit)).
  - rewrite !cell_put_ne in Heq by done. rewrite cell_put_ne in Hnz by done.
    by apply Hcons.
Qed.

Lemma in_range_put g r c v :
  wf_grid g → r < 9 → c < 9 → (0 ≤ v ≤ 9)%Z → in_range g → in_range (put g r c v).
Proof.
  intros Hwf Hr Hc Hv Hrange r' c' Hr' Hc'.
  destruct (decide ((r', c') = (r, c))) as [[= -> ->]|Hne].
  - by rewrite cell_put_eq.
  - rewrite cell_put_ne by done. by apply Hrange.
Qed.

(** ** What a sequence of legal placements preserves *)

Lemma reach_wf n g g' : reach n g g' → wf_grid g → wf_grid g'.
Proof.
  induction 1 as [|n g r c v g' Hr Hc He Hv Hok _ IH]; [done|].
  intros Hwf. apply IH. by apply wf_put.
Qed.

Lemma reach_count n g g' : reach n g g' → wf_grid g → count_empty g = n + count_empty g'.
Proof.
  induction 1 as [|n g r c v g' Hr Hc He Hv Hok _ IH]; [done|].
  intros Hwf. rewrite (count_empty_put g r c v) by (try done; lia).
  rewrite IH by by apply wf_put. lia.
Qed.

Lemma reach_frame n g g' r c :
  reach n g g' → wf_grid g → cell g r c ≠ 0%Z → cell g' r c = cell g r c.
Proof.
  induction 1 as [|n g r0 c0 v g' Hr Hc He Hv Hok _ IH]; [done|].
  intros Hwf Hnz. assert ((r, c) ≠ (r0, c0)) as Hne by (intros [= -> ->]; done).
  rewrite IH.
  - by apply cell_put_ne.
  - by apply wf_put.
  - by rewrite cell_put_ne.
Qed.

Lemma reach_consistent n g g' : reach n g g' → wf_grid g → consistent g → consistent g'.
Proof.
  induction 1 as [|n g r c v g' Hr Hc He Hv Hok _ IH]; [done|].
  intros Hwf Hcons. apply IH; [by apply wf_put|].
  apply consistent_put; try done. lia.
Qed.

Lemma reach_in_range n g g' : reach n g g' → wf_grid g → in_range g → in_range g'.
Proof.
  induction 1 as [|n g r c v g' Hr Hc He Hv Hok _ IH]; [done|].
  intros Hwf Hrange. apply IH; [by apply wf_put|].
  apply in_range_put; try done. lia.
Qed.

(** ** Complete consistent grids are valid Sudokus, and conversely *)

Lemma unit_Permutation (l : list Z) :
  NoDup l → length l = 9 → (∀ x, x ∈ l → (1 ≤ x ≤ 9)%Z) → l ≡ₚ digits.
Proof.
  intros Hnd Hlen Hdigit. apply submseteq_length_Permutation.
  - apply NoDup_submseteq; [done|]. intros x Hx. unfold digits.
    apply elem_of_seqZ. specialize (Hdigit x Hx). lia.
  - rewrite Hlen. done.
Qed.

Lemma NoDup_fmap_inj_on {A B : Type} (f : A → B) (l : list A) x y :
  NoDup (f <$> l) → x ∈ l → y ∈ l → f x = f y → x = y.
Proof.
  induction l as [|z l IH]; intros Hnd Hx Hy Heq.
  - by apply not_elem_of_nil in Hx.
  - rewrite fmap_cons in Hnd. apply NoDup_cons in Hnd as [Hz Hnd].
    apply elem_of_cons in Hx as [->|Hx]; apply elem_of_cons in Hy as [->|Hy].
    + done.
    + exfalso. apply Hz. rewrite Heq. by apply list_elem_of_fmap_2.
    + exfalso. apply Hz. rewrite <- Heq. by apply list_elem_of_fmap_2.
    + by apply IH.
Qed.

Lemma box_cells_NoDup : NoDup (cprod (seq 0 3) (seq 0 3)).
Proof. apply (bool_decide_unpack (NoDup (cprod (seq 0 3) (seq 0 3)))). by vm_compute. Qed.

Lemma box_cells_spec i j : (i, j) ∈ cprod (seq 0 3) (seq 0 3) ↔ i < 3 ∧ j < 3.
Proof. rewrite list_elem_of_cprod, !elem_of_seq. simpl. lia. Qed.

Lemma box_index_div b i : i < 3 → (b * 3 + i) / 3 = b.
Proof.
  intros Hi. rewrite Nat.add_comm, Nat.div_add by lia.
  rewrite Nat.div_small by lia. done.
Qed.

Lemma full_consistent_valid g :
  full g → in_range g → consistent g → valid_sudoku g.
Proof.
  intros Hfull Hrange Hcons.
  assert (∀ r c, r < 9 → c < 9 → (1 ≤ cell g r c ≤ 9)%Z) as Hdigit.
  { intros r c Hr Hc. specialize (Hfull r c Hr Hc). specialize (Hrange r c Hr Hc). lia. }
  split; [done|]. split; [|split].
  - intros r Hr. apply unit_Permutation.
    + apply NoDup_fmap_2_strong; [|apply NoDup_seq].
      intros c c' Hc Hc' Heq. apply elem_of_seq in Hc, Hc'.
      apply (Hcons r c r c'); try done; try lia.
      * by left.
      * apply Hfull; lia.
    + unfold row_vals. by rewrite length_fmap, length_seq.
    + intros x Hx. apply list_elem_of_fmap in Hx as (c & -> & Hc).
      apply elem_of_seq in Hc. apply Hdigit; lia.
  - intros c Hc. apply unit_Permutation.
    + apply NoDup_fmap_2_strong; [|apply NoDup_seq].
      intros r r' Hr Hr' Heq. apply elem_of_seq in Hr, Hr'.
      apply (Hcons r c r' c); try done; try lia.
      * right. by left.
      * apply Hfull; lia.
    + unfold col_vals. by rewrite length_fmap, length_seq.
    + intros x Hx. apply list_elem_of_fmap in Hx as (r & -> & Hr).
      apply elem_of_seq in Hr. apply Hdigit; lia.
  - intros br bc Hbr Hbc. apply unit_Permutation.
    + apply NoDup_fmap_2_strong; [|apply box_cells_NoDup].
      intros [i j] [i' j'] Hp Hq Heq. simpl in Heq.
      apply box_cells_spec in Hp as [Hi Hj]. apply box_cells_spec in Hq as [Hi' Hj'].
      destruct (Hcons (br * 3 + i) (bc * 3 + j) (br * 3 + i') (bc * 3 + j')) as [H1 H2];
        try done; try lia.
      * right. right. by rewrite !box_index_div.
      * apply Hfull; lia.
      * f_equal; lia.
    + unfold box_vals. by rewrite length_fmap.
    + intros x Hx. apply list_elem_of_fmap in Hx as ([i j] & -> & Hp).
      apply box_cells_spec in Hp as [Hi Hj]. simpl. apply Hdigit; lia.
Qed.

Lemma digits_NoDup : NoDup digits.
Proof. apply NoDup_seqZ. Qed.

Lemma valid_consistent s : valid_sudoku s → consistent s.
Proof.
  intros (_ & Hrows & Hcols & Hboxes) r c r' c' Hr Hc Hr' Hc' Hunit _ Heq.
  destruct Hunit as [<-|[<-|[Hbr Hbc]]].
  - split; [done|].
    apply (NoDup_fmap_inj_on (λ c, cell s r c) (seq 0 9)); try done.
    + change (NoDup (row_vals s r)). rewrite (Hrows r Hr). apply digits_NoDup.
    + apply elem_of_seq. lia.
    + apply elem_of_seq. lia.
  - split; [|done].
    apply (NoDup_fmap_inj_on (λ r, cell s r c) (seq 0 9)); try done.
    + change (NoDup (col_vals s c)). rewrite (Hcols c Hc). apply digits_NoDup.
    + apply elem_of_seq. lia.
    + apply elem_of_seq. lia.
  - assert (r / 3 < 3) by (apply Nat.Div0.div_lt_upper_bound; lia).
    assert (c / 3 < 3) by (apply Nat.Div0.div_lt_upper_bound; lia).
    pose proof (Nat.div_mod_eq r 3). pose proof (Nat.div_mod_eq r' 3).
    pose proof (Nat.div_mod_eq c 3). pose proof (Nat.div_mod_eq c' 3).
    pose proof (Nat.mod_upper_bound r 3). pose proof (Nat.mod_upper_bound r' 3).
    pose proof (Nat.mod_upper_bound c 3). pose proof (Nat.mod_upper_bound c' 3).
    assert (r mod 3 = r' mod 3 ∧ c mod 3 = c' mod 3) as [Hi Hj].
    { apply pair_equal_spec.
      apply (NoDup_fmap_inj_on
        (λ p, cell s (r / 3 * 3 + p.1) (c / 3 * 3 + p.2)) (cprod (seq 0 3) (seq 0 3))).
      - change (NoDup (box_vals s (r / 3) (c / 3))).
        rewrite (Hboxes (r / 3) (c / 3)) by done. apply digits_NoDup.
      - apply box_cells_spec. lia.
      - apply box_cells_spec. lia.
      - cbn [fst snd]. replace (r / 3 * 3 + r mod 3) with r by lia.
        replace (c / 3 * 3 + c mod 3) with c by lia.
        replace (r / 3 * 3 + r' mod 3) with r' by lia.
        replace (c / 3 * 3 + c' mod 3) with c' by lia. done. }
    lia.
Qed.

(** The digit a completion holds at an empty cell has no conflict. *)
Lemma completion_no_conflict g s r c :
  valid_sudoku s → extends g s → r < 9 → c < 9 → cell g r c = 0%Z →
  no_conflict g r c (cell s r c).
Proof.
  intros Hvalid Hext Hr Hc Hempty.
  pose proof (valid_consistent s Hvalid) as Hcons.
  destruct Hvalid as (Hdigit & _).
  assert (∀ r' c', r' < 9 → c' < 9 → same_unit r c r' c' → cell g r' c' ≠ cell s r c) as Hunit.
  { intros r' c' Hr' Hc' Hsame Heq.
    specialize (Hdigit r c Hr Hc).
    assert (cell g r' c' ≠ 0%Z) as Hnz by lia.
    destruct (Hcons r c r' c') as [-> ->]; try done; try lia.
    rewrite (Hext r' c') by done. done. }
  split; [|split].
  - intros c' Hc'. apply Hunit; try done. by left.
  - intros r' Hr'. apply Hunit; try done. right. by left.
  - intros i j Hi Hj.
    apply Hunit; [by apply box_origin_bound | by apply box_origin_bound |].
    right. right. by rewrite !box_origin_div.
Qed.

Lemma extends_put g s r c :
  wf_grid g → r < 9 → c < 9 → extends g s → extends (put g r c (cell s r c)) s.
Proof.
  intros Hwf Hr Hc Hext r' c' Hr' Hc' Hnz.
  destruct (decide ((r', c') = (r, c))) as [[= -> ->]|Hne].
  - by rewrite cell_put_eq.
  - rewrite cell_put_ne in * by done. by apply Hext.
Qed.

(** ** Completeness of the search *)

Lemma attempts_complete f d g s r c (domain : list Z) :
  (∀ d g, wf_grid g → extends g s → count_empty g < f →
     ∃ g' log, run (solve_at f d) g = Done (true, g', log)) →
  wf_grid g → r < 9 → c < 9 → cell g r c = 0%Z →
  extends g s → count_empty g < S f →
  (∀ n, n ∈ domain → (1 ≤ n ≤ 9)%Z ∧ no_conflict g r c n) →
  cell s r c ∈ domain →
  ∃ g' log, run (for_return domain (attempt f d r c)) g = Done (Some true, g', log).
Proof.
  intros IHf Hwf Hr Hc Hempty Hext Hfuel.
  induction domain as [|num rest IH]; intros Hdom Hin.
  - by apply not_elem_of_nil in Hin.
  - destruct (Hdom num) as [Hnum Hok]; [left|].
    assert (wf_grid (put g r c num)) as Hwf1 by by apply wf_put.
    assert (count_empty g = S (count_empty (put g r c num))) as Hcount
      by (apply count_empty_put; try done; lia).
    cbn [for_return]. rewrite run_bind, run_attempt by done.
    destruct (decide (num = cell s r c)) as [->|Hne].
    + destruct (IHf (S d) (put g r c (cell s r c))) as (g' & log & Hrun);
        [done | by apply extends_put | lia |].
      rewrite Hrun. cbn [then_run]. simpl. eauto.
    + pose proof (solve_at_ok f (S d) (put g r c num) Hwf1) as Hsub.
      destruct (run (solve_at f (S d)) (put g r c num)) as [[[[|] g2] log2]| |];
        [| |done|lia].
      * cbn [then_run]. simpl. eauto.
      * destruct Hsub as (Hsame & _). rewrite (Hsame eq_refl).
        rewrite (run_set_cell _ r c 0%Z Hwf1 Hr Hc).
        rewrite (put_undo g r c num Hwf Hr Hempty). cbn [then_run].
        destruct IH as (g' & log & Hrun).
        { intros n Hn. apply Hdom. by right. }
        { apply elem_of_cons in Hin as [Heq|Hin]; [by symmetry in Heq | done]. }
        rewrite Hrun. eauto.
Qed.

Lemma solve_at_complete s fuel :
  valid_sudoku s →
  ∀ d g, wf_grid g → extends g s → count_empty g < fuel →
    ∃ g' log, run (solve_at fuel d) g = Done (true, g', log).
Proof.
  intros Hvalid. induction fuel as [|f IHf]; intros d g Hwf Hext Hfuel; [lia|].
  cbn [solve_at]. rewrite run_bind, run_enter. cbn [then_run].
  destruct (find_mrv_cell_reads g Hwf) as (res & Hres & Hspec).
  rewrite (reads_bind _ _ _ _ Hres).
  destruct res as [[[r c] domain]|]; [|simpl; eauto].
  destruct Hspec as (Hr & Hc & Hempty & Hdomain & _).
  destruct (get_domain_empty g r c Hwf Hr Hc Hempty) as (domain' & Hdomain' & Hmem & _).
  rewrite <- (reads_inj _ _ _ _ Hdomain Hdomain') in Hmem.
  assert (cell s r c ∈ domain) as Hin.
  { apply Hmem. split; [by apply Hvalid | by apply completion_no_conflict]. }
  rewrite decide_False by (intros ->; by apply not_elem_of_nil in Hin).
  rewrite run_bind.
  change (λ num : Z, set_cell r c num;; solve_at f (S d) ≫= λ solved : bool,
            if solved then mret (Some true)
            else set_cell r c 0%Z;; mret None) with (attempt f d r c).
  destruct (attempts_complete f d g s r c domain) as (g' & log & Hrun); try done.
  { intros n Hn. by apply Hmem. }
  rewrite Hrun. cbn [then_run]. simpl. eauto.
Qed.

(** ** The store: the caller's grid object and the solver's *)

Lemma view_lookup σ (o : list nat) r l : o !! r = Some l → view σ o !! r = Some (σ !!! l).
Proof. intros Hl. unfold view. by rewrite list_lookup_fmap, Hl. Qed.

Lemma view_lookup_None σ (o : list nat) r : o !! r = None → view σ o !! r = None.
Proof. intros Hl. unfold view. by rewrite list_lookup_fmap, Hl. Qed.

Lemma view_insert σ (o : list nat) r l rw :
  NoDup o → o !! r = Some l → l < length σ →
  view (<[l := rw]> σ) o = <[r := rw]> (view σ o).
Proof.
  intros Hnd Hl Hlt. apply list_eq. intros i. unfold view.
  rewrite list_lookup_fmap.
  destruct (decide (i = r)) as [->|Hne].
  - rewrite Hl. simpl. rewrite list_lookup_insert_eq.
    + by rewrite list_lookup_total_insert_eq.
    + rewrite length_fmap. by apply lookup_lt_Some in Hl.
  - rewrite list_lookup_insert_ne by done. rewrite list_lookup_fmap.
    destruct (o !! i) as [l'|] eqn:Hl'; [|done]. simpl. f_equal.
    apply list_lookup_total_insert_ne. intros <-.
    apply Hne. by apply (NoDup_lookup o i r l).
Qed.

Lemma run_store_sim {A : Type} (p : prog A) (self : list nat) (σ : store) :
  NoDup self → Forall (λ l, l < length σ) self →
  match run p (view σ self) with
  | Done (a, g', _) =>
      ∃ σ', run_store p self σ = Done (a, σ') ∧ view σ' self = g' ∧
            length σ' = length σ ∧ ∀ l, l ∉ self → σ' !! l = σ !! l
  | IndexError => run_store p self σ = IndexError
  | OutOfFuel => run_store p self σ = OutOfFuel
  end.
Proof.
  intros Hnd. revert σ.
  induction p as [a|row k IH|row col num k IH|depth k IH| |]; intros σ Hself.
  - simpl. by exists σ.
  - simpl. destruct (self !! row) as [l|] eqn:Hl.
    + rewrite (view_lookup σ self row l Hl).
      assert (l < length σ) as Hlt
        by (rewrite Forall_forall in Hself; apply Hself; by eapply list_elem_of_lookup_2).
      rewrite (list_lookup_lookup_total_lt σ l Hlt). by apply IH.
    + by rewrite (view_lookup_None σ self row Hl).
  - simpl. destruct (self !! row) as [l|] eqn:Hl.
    + rewrite (view_lookup σ self row l Hl).
      assert (l < length σ) as Hlt
        by (rewrite Forall_forall in Hself; apply Hself; by eapply list_elem_of_lookup_2).
      rewrite (list_lookup_lookup_total_lt σ l Hlt).
      case_decide; [|done].
      rewrite <- (view_insert σ self row l) by done.
      assert (Forall (λ l0, l0 < length (<[l := <[col := num]> (σ !!! l)]> σ)) self) as Hself'
        by by rewrite length_insert.
      specialize (IH _ Hself').
      destruct (run k (view (<[l := <[col := num]> (σ !!! l)]> σ) self))
        as [[[a g'] log]| |]; simpl; [|done|done].
      destruct IH as (σ' & Hrun & Hview & Hlen & Hframe).
      exists σ'. split_and!; try done.
      * by rewrite Hlen, length_insert.
      * intros l' Hl'. rewrite Hframe by done.
        apply list_lookup_insert_ne. intros <-. apply Hl'.
        by eapply list_elem_of_lookup_2.
    + by rewrite (view_lookup_None σ self row Hl).
  - simpl. specialize (IH σ Hself).
    by destruct (run k (view σ self)) as [[[a g'] log]| |].
  - done.
  - done.
Qed.

Lemma init_fresh (grid_arg : list nat) (σ : store) :
  let '(σ1, self) := init grid_arg σ in
  NoDup self ∧ Forall (λ l, l < length σ1) self ∧
  view σ1 self = view σ grid_arg ∧
  (∀ l, l ∈ self → length σ ≤ l) ∧
  (∀ l, l < length σ → σ1 !! l = σ !! l).
Proof.
  unfold init. split_and!.
  - apply NoDup_seq.
  - apply Forall_forall. intros l Hl. apply elem_of_seq in Hl.
    rewrite length_app. unfold view. rewrite length_fmap. lia.
  - apply list_eq. intros i. unfold view at 1. rewrite list_lookup_fmap.
    destruct (decide (i < length grid_arg)) as [Hlt|Hge].
    + rewrite lookup_seq_lt by done. simpl.
      rewrite lookup_total_app_r by lia.
      replace (length σ + i - length σ) with i by lia.
      assert (i < length (view σ grid_arg)) as Hlt'
        by (unfold view; by rewrite length_fmap).
      by rewrite (list_lookup_lookup_total_lt _ _ Hlt').
    + rewrite lookup_seq_ge by lia. simpl. symmetry.
      apply lookup_ge_None. unfold view. rewrite length_fmap. lia.
  - intros l Hl. apply elem_of_seq in Hl. lia.
  - intros l Hl. by apply lookup_app_l.
Qed.

(** ** Checking the predicates on a given grid *)

Example solve_main_puzzle : ∃ log, run (solve 82) puzzle = Done (true, solution, log).
Proof. eexists. vm_compute. reflexivity. Qed.

Example solve_dead_end : run (solve 82) dead_end = Done (false, dead_end, [EvEnter 0 dead_end]).
Proof. vm_compute. reflexivity. Qed.

Example solve_twisted : ∃ log, run (solve 82) twisted = Done (false, twisted, log) ∧ length log = 10.
Proof. eexists. split; vm_compute; reflexivity. Qed.

Lemma all_cells_true (P : nat → nat → bool) :
  all_cells P = true → ∀ r c, r < 9 → c < 9 → P r c = true.
Proof.
  unfold all_cells. rewrite forallb_forall. intros Hall r c Hr Hc.
  apply (Hall (r, c)). apply list_elem_of_In. by apply coords_spec.
Qed.

Lemma all_cells_decide (P : nat → nat → Prop) `{!∀ r c, Decision (P r c)} :
  all_cells (λ r c, bool_decide (P r c)) = true → ∀ r c, r < 9 → c < 9 → P r c.
Proof.
  intros Hall r c Hr Hc. apply (bool_decide_eq_true_1 (P r c)).
  by apply (all_cells_true _ Hall).
Qed.

Lemma fullb_sound g : fullb g = true → full g.
Proof. intros Hall. exact (all_cells_decide _ Hall). Qed.

Lemma in_rangeb_sound g : in_rangeb g = true → in_range g.
Proof. intros Hall. exact (all_cells_decide _ Hall). Qed.

Lemma extendsb_sound g s : extendsb g s = true → extends g s.
Proof. intros Hall. exact (all_cells_decide _ Hall). Qed.

Lemma consistentb_sound g : consistentb g = true → consistent g.
Proof.
  intros Hall r c r' c' Hr Hc Hr' Hc'. unfold consistentb in Hall.
  pose proof (all_cells_true _ Hall r c Hr Hc) as Hinner. cbv beta in Hinner.
  exact (all_cells_decide _ Hinner r' c' Hr' Hc').
Qed.

Lemma wf_grid_check g :
  bool_decide (length g = 9) && forallb (λ rw, bool_decide (length rw = 9)) g = true →
  wf_grid g.
Proof.
  intros [Hlen Hrows]%andb_true_iff. split.
  - by apply bool_decide_eq_true_1 in Hlen.
  - apply Forall_forall. intros rw Hrw. rewrite forallb_forall in Hrows.
    apply (bool_decide_eq_true_1 (length rw = 9)). apply Hrows. by apply list_elem_of_In.
Qed.

Lemma checked_valid g :
  fullb g && in_rangeb g && consistentb g = true → valid_sudoku g.
Proof.
  intros [[Hfull Hrange]%andb_true_iff Hcons]%andb_true_iff.
  apply full_consistent_valid;
    [by apply fullb_sound | by apply in_rangeb_sound | by apply consistentb_sound].
Qed.

Lemma solvable_in_range g : solvable g → in_range g.
Proof.
  intros (s & _ & (Hdigit & _) & Hext) r c Hr Hc.
  destruct (decide (cell g r c = 0%Z)) as [->|Hnz]; [lia|].
  rewrite <- (Hext r c Hr Hc Hnz). specialize (Hdigit r c Hr Hc). lia.
Qed.

(** * The properties of the solver *)

(** C4. On a 9x9 grid, for [row] and [col] in 0..8 and [num] in 1..9,
    [is_valid row col num] returns [True] if and only if [num] occurs
    nowhere in row [row], nowhere in column [col] and nowhere in the 3x3
    box of origin [(row / 3 * 3, col / 3 * 3)]; the call leaves the grid as
    it was and assigns to no cell. *)
Theorem is_valid_correct (g : grid) (row col : nat) (num : Z) :
  wf_grid g → row < 9 → col < 9 → (1 ≤ num ≤ 9)%Z →
  ∃ b, run (is_valid row col num) g = Done (b, g, []) ∧
       (b = true ↔ no_conflict g row col num).
Proof. intros Hwf Hrow Hcol _. by apply is_valid_reads. Qed.

Lemma is_valid_correct_witness :
  ∃ b, run (is_valid 0 2 4%Z) puzzle = Done (b, puzzle, []) ∧
       (b = true ↔ no_conflict puzzle 0 2 4%Z).
Proof.
  apply (is_valid_correct puzzle 0 2 4%Z).
  - apply wf_grid_check. vm_compute. reflexivity.
  - lia.
  - lia.
  - lia.
Defined.

(** C5. On a 9x9 grid, [get_domain row col] returns the empty list when
    the cell is filled; when the cell is empty it returns exactly the
    digits [n] of 1..9 for which [is_valid row col n] is [True], in
    strictly ascending order. *)
Theorem get_domain_correct (g : grid) (row col : nat) :
  wf_grid g → row < 9 → col < 9 →
  (cell g row col ≠ 0%Z → run (get_domain row col) g = Done ([], g, [])) ∧
  (cell g row col = 0%Z →
     ∃ domain, run (get_domain row col) g = Done (domain, g, []) ∧
       (∀ n, n ∈ domain ↔
             (1 ≤ n ≤ 9)%Z ∧ run (is_valid row col n) g = Done (true, g, [])) ∧
       StronglySorted Z.lt domain).
Proof.
  intros Hwf Hrow Hcol. split.
  - by apply get_domain_filled.
  - intros Hempty.
    destruct (get_domain_empty g row col Hwf Hrow Hcol Hempty)
      as (domain & Hdom & Hmem & Hsorted & _).
    exists domain. split; [done|]. split; [|done].
    intros n. rewrite Hmem.
    destruct (is_valid_reads g row col n Hwf Hrow Hcol) as (b & Hb & Hiff).
    split; intros [Hn Hok]; (split; [done|]).
    + apply Hiff in Hok. by subst b.
    + apply Hiff. by apply (reads_inj _ _ _ _ Hb Hok).
Qed.

Lemma get_domain_correct_witness :
  (cell puzzle 0 2 ≠ 0%Z → run (get_domain 0 2) puzzle = Done ([], puzzle, [])) ∧
  (cell puzzle 0 2 = 0%Z →
     ∃ domain, run (get_domain 0 2) puzzle = Done (domain, puzzle, []) ∧
       (∀ n, n ∈ domain ↔
             (1 ≤ n ≤ 9)%Z ∧ run (is_valid 0 2 n) puzzle = Done (true, puzzle, [])) ∧
       StronglySorted Z.lt domain).
Proof.
  apply (get_domain_correct puzzle 0 2).
  - apply wf_grid_check. vm_compute. reflexivity.
  - lia.
  - lia.
Defined.

(** C6. On a 9x9 grid, [find_mrv_cell] returns [None] if and only if no
    cell is empty; otherwise it returns [(row, col, domain)] where
    [(row, col)] is an empty cell, [domain] is [get_domain row col], every
    empty cell scanned before it has a strictly larger domain and no empty
    cell scanned after it has a strictly smaller one.  It leaves the grid
    as it was. *)
Theorem find_mrv_cell_correct (g : grid) :
  wf_grid g →
  ∃ res, run find_mrv_cell g = Done (res, g, []) ∧
    (res = None ↔ full g) ∧
    ∀ row col domain, res = Some (row, col, domain) →
      row < 9 ∧ col < 9 ∧ cell g row col = 0%Z ∧
      run (get_domain row col) g = Done (domain, g, []) ∧
      ∀ r' c' domain', r' < 9 → c' < 9 → cell g r' c' = 0%Z →
        run (get_domain r' c') g = Done (domain', g, []) →
        (scanned_before r' c' row col → length domain < length domain') ∧
        (scanned_before row col r' c' → length domain ≤ length domain').
Proof.
  intros Hwf. destruct (find_mrv_cell_reads g Hwf) as (res & Hres & Hspec).
  exists res. split; [done|]. split.
  - split.
    + intros ->. exact Hspec.
    + intros Hfull. destruct res as [[[r c] domain]|]; [|done].
      destruct Hspec as (Hr & Hc & Hempty & _). by destruct (Hfull r c Hr Hc).
  - intros row col domain ->. destruct Hspec as (Hr & Hc & Hempty & Hdom & Hmin).
    split_and!; try done.
    intros r' c' domain' Hr' Hc' Hempty' Hdom'.
    destruct (Hmin r' c' domain' Hr' Hc' Hempty' Hdom') as [Hle Hlt].
    split; [done|]. intros _. done.
Qed.

Lemma find_mrv_cell_correct_witness :
  ∃ res, run find_mrv_cell puzzle = Done (res, puzzle, []) ∧
    (res = None ↔ full puzzle) ∧
    ∀ row col domain, res = Some (row, col, domain) →
      row < 9 ∧ col < 9 ∧ cell puzzle row col = 0%Z ∧
      run (get_domain row col) puzzle = Done (domain, puzzle, []) ∧
      ∀ r' c' domain', r' < 9 → c' < 9 → cell puzzle r' c' = 0%Z →
        run (get_domain r' c') puzzle = Done (domain', puzzle, []) →
        (scanned_before r' c' row col → length domain < length domain') ∧
        (scanned_before row col r' c' → length domain ≤ length domain').
Proof.
  apply (find_mrv_cell_correct puzzle).
  apply wf_grid_check. vm_compute. reflexivity.
Defined.

(** C1. For every 9x9 grid that satisfies the uniqueness invariant and has
    a legal completion, [solve] returns [True] (with any budget of nested
    calls larger than the number of empty cells) and the grid is then a
    complete valid Sudoku: every cell holds a digit 1..9 and each row, each
    column and each 3x3 box is a permutation of 1..9. *)
Theorem solve_solves_solvable (fuel : nat) (g : grid) :
  wf_grid g → consistent g → solvable g → count_empty g < fuel →
  ∃ g' log, run (solve fuel) g = Done (true, g', log) ∧ valid_sudoku g'.
Proof.
  intros Hwf Hcons Hsolvable Hfuel.
  pose proof (solvable_in_range g Hsolvable) as Hrange.
  destruct Hsolvable as (s & _ & Hvalid & Hext).
  destruct (solve_at_complete s fuel Hvalid 0 g Hwf Hext Hfuel) as (g' & log & Hrun).
  exists g', log. split; [done|].
  pose proof (solve_at_ok fuel 0 g Hwf) as Hpost. unfold solve in Hrun.
  rewrite Hrun in Hpost. destruct Hpost as (_ & Hfull & [n Hreach] & _).
  apply full_consistent_valid.
  - by apply Hfull.
  - by apply (reach_in_range n g g').
  - by apply (reach_consistent n g g').
Qed.

Lemma solve_solves_solvable_witness :
  ∃ g' log, run (solve 82) puzzle = Done (true, g', log) ∧ valid_sudoku g'.
Proof.
  apply (solve_solves_solvable 82 puzzle).
  - apply wf_grid_check. vm_compute. reflexivity.
  - apply consistentb_sound. vm_compute. reflexivity.
  - exists solution. split; [|split].
    + apply wf_grid_check. vm_compute. reflexivity.
    + apply checked_valid. vm_compute. reflexivity.
    + apply extendsb_sound. vm_compute. reflexivity.
  - pose proof (count_empty_le puzzle). lia.
Defined.

(** C2. For every 9x9 grid, if [solve] returns [False] then the grid after
    the call is the grid before the call. *)
Theorem solve_failure_restores (fuel : nat) (g g' : grid) (log : list event) :
  wf_grid g → run (solve fuel) g = Done (false, g', log) → g' = g.
Proof.
  intros Hwf Hrun. pose proof (solve_at_ok fuel 0 g Hwf) as Hpost.
  unfold solve in Hrun. rewrite Hrun in Hpost.
  destruct Hpost as (Hsame & _). by apply Hsame.
Qed.

Lemma solve_failure_restores_witness :
  ∃ g' log, run (solve 82) twisted = Done (false, g', log) ∧ g' = twisted.
Proof.
  eexists _, _. split; [vm_compute; reflexivity|].
  eapply (solve_failure_restores 82 twisted).
  - apply wf_grid_check. vm_compute. reflexivity.
  - vm_compute. reflexivity.
Defined.

(** C7. For every 9x9 grid with no empty cell, [solve] returns [True] with
    the grid unchanged, and all it does is enter once: no nested call and
    no assignment to a cell. *)
Theorem solve_full_immediate (fuel : nat) (g : grid) :
  wf_grid g → full g →
  run (solve (S fuel)) g = Done (true, g, [EvEnter 0 g]).
Proof.
  intros Hwf Hfull. unfold solve. cbn [solve_at].
  rewrite run_bind, run_enter. cbn [then_run].
  destruct (find_mrv_cell_reads g Hwf) as (res & Hres & Hspec).
  rewrite (reads_bind _ _ _ _ Hres).
  destruct res as [[[r c] domain]|]; [|done].
  destruct Hspec as (Hr & Hc & Hempty & _). by destruct (Hfull r c Hr Hc).
Qed.

Lemma solve_full_immediate_witness :
  run (solve 1) solution = Done (true, solution, [EvEnter 0 solution]).
Proof.
  apply (solve_full_immediate 0 solution).
  - apply wf_grid_check. vm_compute. reflexivity.
  - apply fullb_sound. vm_compute. reflexivity.
Defined.

(** C8. For every 9x9 grid satisfying the uniqueness invariant, [solve]
    returns, and every grid state it goes through, after each placement
    and after each undo, satisfies the invariant, as does the final grid;
    a digit placed in a cell occurs in no other cell of the row, the column
    or the box of that cell. *)
Theorem solve_preserves_consistency (fuel : nat) (g : grid) :
  wf_grid g → consistent g → count_empty g < fuel →
  ∃ b g' log, run (solve fuel) g = Done (b, g', log) ∧
    consistent g' ∧
    (∀ e, e ∈ log → consistent (event_grid e)) ∧
    (∀ r c v gx, EvWrite r c v gx ∈ log → v ≠ 0%Z →
       ∀ r' c', r' < 9 → c' < 9 → same_unit r c r' c' → (r', c') ≠ (r, c) →
         cell gx r' c' ≠ v).
Proof.
  intros Hwf Hcons Hfuel. pose proof (solve_at_ok fuel 0 g Hwf) as Hpost.
  unfold solve. destruct (run (solve_at fuel 0) g) as [[[b g'] log]| |]; [|done|lia].
  destruct Hpost as (_ & _ & [n Hreach] & Hlog). rewrite Forall_forall in Hlog.
  exists b, g', log. split; [done|]. split_and!.
  - by apply (reach_consistent n g g').
  - intros e He. specialize (Hlog e He). destruct e as [d gx|r c v gx]; simpl in *.
    + destruct Hlog as (m & _ & Hm). by apply (reach_consistent m g gx).
    + destruct Hlog as (_ & _ & _ & _ & m & Hm). by apply (reach_consistent m g gx).
  - intros r c v gx He Hv r' c' Hr' Hc' Hunit Hne Heq.
    destruct (Hlog _ He) as (Hr & Hc & _ & Hval & m & Hm).
    pose proof (reach_consistent m g gx Hm Hwf Hcons) as Hgx.
    destruct (Hgx r c r' c') as [-> ->]; try done; congruence.
Qed.

Lemma solve_preserves_consistency_witness :
  ∃ b g' log, run (solve 82) puzzle = Done (b, g', log) ∧
    consistent g' ∧
    (∀ e, e ∈ log → consistent (event_grid e)) ∧
    (∀ r c v gx, EvWrite r c v gx ∈ log → v ≠ 0%Z →
       ∀ r' c', r' < 9 → c' < 9 → same_unit r c r' c' → (r', c') ≠ (r, c) →
         cell gx r' c' ≠ v).
Proof.
  apply (solve_preserves_consistency 82 puzzle).
  - apply wf_grid_check. vm_compute. reflexivity.
  - apply consistentb_sound. vm_compute. reflexivity.
  - pose proof (count_empty_le puzzle). lia.
Defined.

(** C9. For every 9x9 grid, [solve] terminates within a budget of nested
    calls one larger than the number of empty cells, which is at most 81;
    a call entered at depth [d] finds a grid with exactly [d] empty cells
    fewer than the input grid, so that the depth never exceeds the number
    of empty cells of the input and a nested call always works on a grid
    with strictly fewer empty cells than its caller's. *)
Theorem solve_depth_bounded (fuel : nat) (g : grid) :
  wf_grid g → count_empty g < fuel →
  count_empty g ≤ 81 ∧
  ∃ b g' log, run (solve fuel) g = Done (b, g', log) ∧
    (∀ d gx, EvEnter d gx ∈ log →
       d + count_empty gx = count_empty g ∧ d ≤ count_empty g) ∧
    (∀ d gx d' gx', EvEnter d gx ∈ log → EvEnter d' gx' ∈ log → d < d' →
       count_empty gx' < count_empty gx).
Proof.
  intros Hwf Hfuel. split; [apply count_empty_le|].
  pose proof (solve_at_ok fuel 0 g Hwf) as Hpost.
  unfold solve. destruct (run (solve_at fuel 0) g) as [[[b g'] log]| |]; [|done|lia].
  destruct Hpost as (_ & _ & _ & Hlog). rewrite Forall_forall in Hlog.
  assert (∀ d gx, EvEnter d gx ∈ log → d + count_empty gx = count_empty g) as Hdepth.
  { intros d gx He. destruct (Hlog _ He) as (n & -> & Hreach).
    rewrite (reach_count n g gx Hreach Hwf). lia. }
  exists b, g', log. split; [done|]. split.
  - intros d gx He. specialize (Hdepth d gx He). lia.
  - intros d gx d' gx' He He' Hlt.
    pose proof (Hdepth d gx He). pose proof (Hdepth d' gx' He'). lia.
Qed.

Lemma solve_depth_bounded_witness :
  count_empty puzzle ≤ 81 ∧
  ∃ b g' log, run (solve 82) puzzle = Done (b, g', log) ∧
    (∀ d gx, EvEnter d gx ∈ log →
       d + count_empty gx = count_empty puzzle ∧ d ≤ count_empty puzzle) ∧
    (∀ d gx d' gx', EvEnter d gx ∈ log → EvEnter d' gx' ∈ log → d < d' →
       count_empty gx' < count_empty gx).
Proof.
  apply (solve_depth_bounded 82 puzzle).
  - apply wf_grid_check. vm_compute. reflexivity.
  - pose proof (count_empty_le puzzle). lia.
Defined.

(** C10. For every 9x9 grid, when [solve] returns, with [True] or with
    [False], every cell that was filled at entry holds its original value,
    and every assignment [solve] made was to a cell that was empty at
    entry. *)
Theorem solve_keeps_clues (fuel : nat) (g g' : grid) (b : bool) (log : list event) :
  wf_grid g → run (solve fuel) g = Done (b, g', log) →
  (∀ r c, cell g r c ≠ 0%Z → cell g' r c = cell g r c) ∧
  (∀ r c v gx, EvWrite r c v gx ∈ log → cell g r c = 0%Z).
Proof.
  intros Hwf Hrun. pose proof (solve_at_ok fuel 0 g Hwf) as Hpost.
  unfold solve in Hrun. rewrite Hrun in Hpost.
  destruct Hpost as (_ & _ & [n Hreach] & Hlog). rewrite Forall_forall in Hlog.
  split.
  - intros r c Hnz. by apply (reach_frame n g g').
  - intros r c v gx He. by destruct (Hlog _ He) as (_ & _ & Hempty & _).
Qed.

Lemma solve_keeps_clues_witness :
  ∃ b g' log, run (solve 82) puzzle = Done (b, g', log) ∧
    (∀ r c, cell puzzle r c ≠ 0%Z → cell g' r c = cell puzzle r c) ∧
    (∀ r c v gx, EvWrite r c v gx ∈ log → cell puzzle r c = 0%Z).
Proof.
  eexists _, _, _. split; [vm_compute; reflexivity|].
  eapply (solve_keeps_clues 82 puzzle).
  - apply wf_grid_check. vm_compute. reflexivity.
  - vm_compute. reflexivity.
Defined.

(** C3, as claimed, fails: [main]'s puzzle is passed to the solver, [solve]
    returns [True], and the caller's grid object still holds the unsolved
    puzzle, which is not a complete valid Sudoku. *)
Lemma caller_grid_left_unsolved :
  ∃ self σ', solve_call 82 main_puzzle main_store = Done (true, self, σ') ∧
    view σ' main_puzzle = puzzle ∧
    ¬ valid_sudoku (view σ' main_puzzle).
Proof.
  eexists _, _. split; [vm_compute; reflexivity|]. split; [vm_compute; reflexivity|].
  intros (Hdigit & _). specialize (Hdigit 0 2 ltac:(lia) ltac:(lia)).
  vm_compute in Hdigit. destruct Hdigit as [Hdigit _]. by apply Hdigit.
Qed.

(** C3, amended. For every 9x9 grid of values 0..9 satisfying the
    uniqueness invariant that the caller passes to [SudokuCSP], when
    [solve] returns [True] the solver's own grid, the copy made by
    [__init__], holds a complete valid Sudoku, while the caller's grid
    object and every row object that existed before the call are exactly
    as they were: the solver shares no row with its caller. *)
Theorem solve_call_fills_copy (fuel : nat) (σ σ' : store) (grid_arg self : list nat) :
  Forall (λ l, l < length σ) grid_arg →
  wf_grid (view σ grid_arg) → in_range (view σ grid_arg) → consistent (view σ grid_arg) →
  solve_call fuel grid_arg σ = Done (true, self, σ') →
  valid_sudoku (view σ' self) ∧
  view σ' grid_arg = view σ grid_arg ∧
  (∀ l, l < length σ → σ' !! l = σ !! l) ∧
  (∀ l, l ∈ self → l ∉ grid_arg).
Proof.
  intros Halloc Hwf Hrange Hcons. unfold solve_call.
  pose proof (init_fresh grid_arg σ) as Hinit.
  destruct (init grid_arg σ) as [σ1 self0].
  destruct Hinit as (Hnd & Hself & Hview & Hfresh & Hold).
  pose proof (run_store_sim (solve fuel) self0 σ1 Hnd Hself) as Hsim.
  rewrite Hview in Hsim.
  pose proof (solve_at_ok fuel 0 (view σ grid_arg) Hwf) as Hpost.
  unfold solve in Hsim at 1.
  destruct (run (solve_at fuel 0) (view σ grid_arg)) as [[[b g'] log]| |];
    [|done|by rewrite Hsim].
  destruct Hsim as (σ2 & -> & Hview2 & Hlen & Hframe).
  intros [= -> <- <-].
  destruct Hpost as (_ & Hfull & [n Hreach] & _).
  assert (∀ l, l < length σ → σ2 !! l = σ !! l) as Hkept.
  { intros l Hl. rewrite Hframe, Hold; [done | done |].
    intros Hin. apply Hfresh in Hin. lia. }
  split_and!.
  - rewrite Hview2. apply full_consistent_valid.
    + by apply Hfull.
    + by apply (reach_in_range n (view σ grid_arg) g').
    + by apply (reach_consistent n (view σ grid_arg) g').
  - unfold view. apply list_fmap_ext. intros i l Hl.
    rewrite !list_lookup_total_alt. f_equal. apply Hkept.
    rewrite Forall_forall in Halloc. apply Halloc. by eapply list_elem_of_lookup_2.
  - done.
  - intros l Hl Hin. apply Hfresh in Hl.
    rewrite Forall_forall in Halloc. apply Halloc in Hin. lia.
Qed.

Lemma solve_call_fills_copy_witness :
  ∃ self σ', solve_call 82 main_puzzle main_store = Done (true, self, σ') ∧
    valid_sudoku (view σ' self) ∧
    view σ' main_puzzle = view main_store main_puzzle ∧
    (∀ l, l < length main_store → σ' !! l = main_store !! l) ∧
    (∀ l, l ∈ self → l ∉ main_puzzle).
Proof.
  eexists _, _. split; [vm_compute; reflexivity|].
  eapply (solve_call_fills_copy 82 main_store _ main_puzzle).
  - apply Forall_forall. intros l Hl. apply elem_of_seq in Hl. simpl. lia.
  - apply wf_grid_check. vm_compute. reflexivity.
  - apply in_rangeb_sound. vm_compute. reflexivity.
  - apply consistentb_sound. vm_compute. reflexivity.
  - vm_compute. reflexivity.
Defined.

(** * Part III: further properties of the solver *)

(** ** The query methods on arbitrary grids *)

Lemma readonly_run {A : Type} (p : prog A) g :
  readonly p → run p g = IndexError ∨ ∃ a, run p g = Done (a, g, []).
Proof.
  induction 1 as [a|row k _ IH|]; simpl.
  - right. by exists a.
  - destruct (g !! row) as [rw|]; [apply IH | by left].
  - by left.
Qed.

Lemma readonly_bind {A B : Type} (p : prog A) (f : A → prog B) :
  readonly p → (∀ a, readonly (f a)) → readonly (p ≫= f).
Proof.
  intros Hp Hf. induction Hp as [a|row k _ IH|].
  - apply Hf.
  - change (readonly (GetRow row (λ rw, k rw ≫= f))). constructor. apply IH.
  - constructor.
Qed.

Lemma readonly_mret {A : Type} (a : A) : readonly (mret a).
Proof. constructor. Qed.

Lemma readonly_get_row row : readonly (get_row row).
Proof. constructor. intros rw. constructor. Qed.

Lemma readonly_get_cell row col : readonly (get_cell row col).
Proof.
  apply readonly_bind; [apply readonly_get_row|].
  intros rw. destruct (rw !! col); constructor.
Qed.

Lemma readonly_for_list {A B : Type} (xs : list A) (body : A → prog B) :
  (∀ x, readonly (body x)) → readonly (for_list xs body).
Proof.
  intros Hbody. induction xs as [|x xs IH]; simpl; [constructor|].
  apply readonly_bind; [done|]. intros y.
  apply readonly_bind; [done|]. intros ys. constructor.
Qed.

Lemma readonly_for_return {A B : Type} (xs : list A) (body : A → prog (option B)) :
  (∀ x, readonly (body x)) → readonly (for_return xs body).
Proof.
  intros Hbody. induction xs as [|x xs IH]; simpl; [constructor|].
  apply readonly_bind; [done|]. intros [b|]; [constructor | done].
Qed.

Lemma readonly_for_fold {A St : Type} (xs : list A) (body : St → A → prog St) st :
  (∀ st x, readonly (body st x)) → readonly (for_fold xs body st).
Proof.
  intros Hbody. revert st. induction xs as [|x xs IH]; intros st; simpl; [constructor|].
  apply readonly_bind; [done|]. intros st'. apply IH.
Qed.

Lemma readonly_is_valid row col num : readonly (is_valid row col num).
Proof.
  unfold is_valid. apply readonly_bind; [apply readonly_get_row|]. intros rw.
  case_decide; [constructor|].
  apply readonly_bind; [apply readonly_for_list; intros r; apply readonly_get_cell|].
  intros column. case_decide; [constructor|].
  apply readonly_bind.
  - apply readonly_for_return. intros r. apply readonly_for_return. intros c.
    apply readonly_bind; [apply readonly_get_cell|]. intros v. case_decide; constructor.
  - intros [b|]; constructor.
Qed.

Lemma readonly_get_domain row col : readonly (get_domain row col).
Proof.
  unfold get_domain. apply readonly_bind; [apply readonly_get_cell|]. intros v.
  case_decide; [constructor|].
  apply readonly_bind; [|intros flags; constructor].
  apply readonly_for_list. intros num.
  apply readonly_bind; [apply readonly_is_valid|]. intros ok. constructor.
Qed.

Lemma readonly_mrv_visit row col (st : nat * option (nat * nat * list Z)) :
  readonly (let '(min_domain_size, best_cell) := st in
            v ← get_cell row col;
            if decide (v = 0%Z) then
              domain ← get_domain row col;
              if decide (length domain < min_domain_size)
              then mret (length domain, Some (row, col, domain))
              else mret (min_domain_size, best_cell)
            else mret (min_domain_size, best_cell)).
Proof.
  destruct st as [min_size best].
  apply readonly_bind; [apply readonly_get_cell|]. intros v.
  case_decide; [|constructor].
  apply readonly_bind; [apply readonly_get_domain|]. intros domain.
  case_decide; constructor.
Qed.

Lemma readonly_find_mrv_cell : readonly find_mrv_cell.
Proof.
  unfold find_mrv_cell. apply readonly_bind; [|intros st; constructor].
  apply readonly_for_fold. intros st row.
  apply readonly_for_fold. intros [min_size best] col.
  apply (readonly_mrv_visit row col (min_size, best)).
Qed.

(** X7. On any grid whatever, of any shape, [is_valid], [get_domain] and
    [find_mrv_cell] either raise [IndexError] or return with the grid
    exactly as it was and without having assigned to any cell. *)
Theorem queries_never_write (g : grid) (row col : nat) (num : Z) :
  (run (is_valid row col num) g = IndexError ∨
   ∃ b, run (is_valid row col num) g = Done (b, g, [])) ∧
  (run (get_domain row col) g = IndexError ∨
   ∃ domain, run (get_domain row col) g = Done (domain, g, [])) ∧
  (run find_mrv_cell g = IndexError ∨
   ∃ res, run find_mrv_cell g = Done (res, g, [])).
Proof.
  split_and!.
  - apply readonly_run, readonly_is_valid.
  - apply readonly_run, readonly_get_domain.
  - apply readonly_run, readonly_find_mrv_cell.
Qed.

(** ** Grids that lack a cell *)

Lemma run_get_cell_missing g r c :
  g !! r ≫= (.!! c) = None → run (get_cell r c) g = IndexError.
Proof.
  intros Hmiss. unfold get_cell. rewrite run_bind. simpl.
  destruct (g !! r) as [rw|]; [|done]. simpl in *. by rewrite Hmiss.
Qed.

Lemma for_fold_raises {A St : Type} (xs : list A) (body : St → A → prog St) st g x0 :
  x0 ∈ xs → (∀ st x, readonly (body st x)) →
  (∀ st, run (body st x0) g = IndexError) →
  run (for_fold xs body st) g = IndexError.
Proof.
  intros Hin Hro Hraise. revert st.
  induction xs as [|x xs IH]; intros st; [by apply not_elem_of_nil in Hin|].
  simpl. rewrite run_bind. apply elem_of_cons in Hin as [<-|Hin].
  - by rewrite Hraise.
  - destruct (readonly_run (body st x) g (Hro st x)) as [->|[st' ->]]; [done|].
    cbn [then_run]. rewrite IH by done. done.
Qed.

Lemma find_mrv_cell_missing g r c :
  r < 9 → c < 9 → g !! r ≫= (.!! c) = None → run find_mrv_cell g = IndexError.
Proof.
  intros Hr Hc Hmiss. unfold find_mrv_cell. rewrite run_bind.
  rewrite (for_fold_raises _ _ _ g r); [done | | |].
  - apply elem_of_seq. unfold size. lia.
  - intros st row. apply readonly_for_fold. intros [min_size best] col.
    apply (readonly_mrv_visit row col (min_size, best)).
  - intros st. apply (for_fold_raises _ _ _ g c).
    + apply elem_of_seq. unfold size. lia.
    + intros [min_size best] col. apply (readonly_mrv_visit r col (min_size, best)).
    + intros [min_size best]. rewrite run_bind.
      by rewrite (run_get_cell_missing g r c Hmiss).
Qed.

(** X6. When the grid lacks one of the 81 cells (fewer than nine rows, or
    a row of fewer than nine cells), [find_mrv_cell] and [solve] raise
    [IndexError]: the solver does not report such a grid as unsolvable. *)
Theorem solve_missing_cell_raises (fuel : nat) (g : grid) (r c : nat) :
  r < 9 → c < 9 → g !! r ≫= (.!! c) = None →
  run find_mrv_cell g = IndexError ∧ run (solve (S fuel)) g = IndexError.
Proof.
  intros Hr Hc Hmiss.
  pose proof (find_mrv_cell_missing g r c Hr Hc Hmiss) as Hfind.
  split; [done|]. unfold solve. cbn [solve_at].
  rewrite run_bind, run_enter. cbn [then_run]. rewrite run_bind, Hfind. done.
Qed.

Lemma solve_missing_cell_raises_witness :
  run find_mrv_cell [] = IndexError ∧ run (solve 82) [] = IndexError.
Proof.
  apply (solve_missing_cell_raises 81 [] 0 0).
  - lia.
  - lia.
  - reflexivity.
Defined.

(** ** What [solve] decides *)

Lemma solvable_consistent g : solvable g → consistent g.
Proof.
  intros (s & _ & Hvalid & Hext) r c r' c' Hr Hc Hr' Hc' Hunit Hnz Heq.
  pose proof (valid_consistent s Hvalid) as Hcons.
  assert (cell g r' c' ≠ 0%Z) as Hnz' by congruence.
  apply (Hcons r c r' c'); try done.
  - by rewrite (Hext r c Hr Hc Hnz).
  - rewrite (Hext r c Hr Hc Hnz), (Hext r' c' Hr' Hc' Hnz'). done.
Qed.

Lemma grid_ext (g1 g2 : grid) :
  wf_grid g1 → wf_grid g2 → (∀ r c, r < 9 → c < 9 → cell g1 r c = cell g2 r c) → g1 = g2.
Proof.
  intros Hwf1 Hwf2 Hcells. apply list_eq. intros r.
  destruct (decide (r < 9)) as [Hr|Hr].
  - destruct (wf_row g1 r Hwf1 Hr) as [-> Hlen1].
    destruct (wf_row g2 r Hwf2 Hr) as [-> Hlen2]. f_equal.
    apply list_eq. intros c. destruct (decide (c < 9)) as [Hc|Hc].
    + rewrite (wf_cell g1 r c Hwf1 Hr Hc), (wf_cell g2 r c Hwf2 Hr Hc). f_equal.
      by apply Hcells.
    + rewrite !lookup_ge_None_2 by lia. done.
  - destruct Hwf1 as [Hl1 _]. destruct Hwf2 as [Hl2 _]. unfold size in *.
    rewrite !lookup_ge_None_2 by lia. done.
Qed.

(** X1. For every 9x9 grid of values 0..9 satisfying the uniqueness
    invariant, when [solve] returns [True] the grid it leaves is a 9x9
    complete valid Sudoku that keeps every clue of the input: [solve] never
    reports success on anything but a legal completion. *)
Theorem solve_true_is_completion (fuel : nat) (g g' : grid) (log : list event) :
  wf_grid g → in_range g → consistent g →
  run (solve fuel) g = Done (true, g', log) →
  wf_grid g' ∧ valid_sudoku g' ∧ extends g g'.
Proof.
  intros Hwf Hrange Hcons Hrun. pose proof (solve_at_ok fuel 0 g Hwf) as Hpost.
  unfold solve in Hrun. rewrite Hrun in Hpost.
  destruct Hpost as (_ & Hfull & [n Hreach] & _). split_and!.
  - by apply (reach_wf n g g').
  - apply full_consistent_valid.
    + by apply Hfull.
    + by apply (reach_in_range n g g').
    + by apply (reach_consistent n g g').
  - intros r c _ _ Hnz. by apply (reach_frame n g g').
Qed.

Lemma solve_true_is_completion_witness :
  ∃ g' log, run (solve 82) puzzle = Done (true, g', log) ∧
    wf_grid g' ∧ valid_sudoku g' ∧ extends puzzle g'.
Proof.
  eexists _, _. split; [vm_compute; reflexivity|].
  eapply (solve_true_is_completion 82 puzzle).
  - apply wf_grid_check. vm_compute. reflexivity.
  - apply in_rangeb_sound. vm_compute. reflexivity.
  - apply consistentb_sound. vm_compute. reflexivity.
  - vm_compute. reflexivity.
Defined.

(** X2. For every 9x9 grid of values 0..9 satisfying the uniqueness
    invariant that has no legal completion, [solve] returns [False] and
    leaves the grid as it was. *)
Theorem solve_unsolvable_fails (fuel : nat) (g : grid) :
  wf_grid g → in_range g → consistent g → ¬ solvable g → count_empty g < fuel →
  ∃ log, run (solve fuel) g = Done (false, g, log).
Proof.
  intros Hwf Hrange Hcons Hunsolvable Hfuel.
  pose proof (solve_at_ok fuel 0 g Hwf) as Hpost. unfold solve.
  destruct (run (solve_at fuel 0) g) as [[[[|] g'] log]| |]; [| |done|lia].
  - exfalso. apply Hunsolvable. destruct Hpost as (_ & Hfull & [n Hreach] & _).
    exists g'. split_and!.
    + by apply (reach_wf n g g').
    + apply full_consistent_valid.
      * by apply Hfull.
      * by apply (reach_in_range n g g').
      * by apply (reach_consistent n g g').
    + intros r c _ _ Hnz. by apply (reach_frame n g g').
  - destruct Hpost as (Hsame & _). rewrite (Hsame eq_refl). by exists log.
Qed.

Lemma twisted_unsolvable : ¬ solvable twisted.
Proof.
  intros (s & _ & Hvalid & Hext).
  assert (wf_grid twisted) as Hwf by (apply wf_grid_check; vm_compute; reflexivity).
  destruct (solve_at_complete s 82 Hvalid 0 twisted Hwf Hext) as (g' & log & Hrun).
  { pose proof (count_empty_le twisted). lia. }
  vm_compute in Hrun. discriminate Hrun.
Qed.

Lemma solve_unsolvable_fails_witness :
  ∃ log, run (solve 82) twisted = Done (false, twisted, log).
Proof.
  apply (solve_unsolvable_fails 82 twisted).
  - apply wf_grid_check. vm_compute. reflexivity.
  - apply in_rangeb_sound. vm_compute. reflexivity.
  - apply consistentb_sound. vm_compute. reflexivity.
  - apply twisted_unsolvable.
  - pose proof (count_empty_le twisted). lia.
Defined.

(** X3. When a 9x9 grid has exactly one legal completion, [solve] returns
    [True] and leaves that completion in the grid. *)
Theorem solve_finds_unique_completion (fuel : nat) (g s : grid) :
  wf_grid g → wf_grid s → valid_sudoku s → extends g s →
  (∀ s', wf_grid s' → valid_sudoku s' → extends g s' → s' = s) →
  count_empty g < fuel →
  ∃ log, run (solve fuel) g = Done (true, s, log).
Proof.
  intros Hwf Hwfs Hvalid Hext Hunique Hfuel.
  assert (solvable g) as Hsolvable by (exists s; done).
  destruct (solve_at_complete s fuel Hvalid 0 g Hwf Hext Hfuel) as (g' & log & Hrun).
  pose proof (solve_at_ok fuel 0 g Hwf) as Hpost. rewrite Hrun in Hpost.
  destruct Hpost as (_ & Hfull & [n Hreach] & _).
  exists log. unfold solve. rewrite Hrun. do 3 f_equal. apply Hunique.
  - by apply (reach_wf n g g').
  - apply full_consistent_valid.
    + by apply Hfull.
    + apply (reach_in_range n g g'); [done | done | by apply solvable_in_range].
    + apply (reach_consistent n g g'); [done | done | by apply solvable_consistent].
  - intros r c _ _ Hnz. by apply (reach_frame n g g').
Qed.

Lemma forced_unique n : ∀ g s s',
  wf_grid g → forced n g = Some s →
  wf_grid s' → valid_sudoku s' → extends g s' → s' = s.
Proof.
  induction n as [|n IH]; intros g s s' Hwf Hforced Hwfs' Hvalid Hext; [done|].
  cbn [forced] in Hforced.
  destruct (find_mrv_cell_reads g Hwf) as (res & Hres & Hspec).
  unfold reads in Hres. rewrite Hres in Hforced.
  destruct res as [[[r c] domain]|].
  - destruct domain as [|v [|]]; try done.
    destruct Hspec as (Hr & Hc & Hempty & Hdomain & _).
    destruct (get_domain_empty g r c Hwf Hr Hc Hempty) as (domain' & Hdomain' & Hmem & _).
    rewrite <- (reads_inj _ _ _ _ Hdomain Hdomain') in Hmem.
    assert (cell s' r c = v) as Hv.
    { assert (cell s' r c ∈ [v]) as Hin.
      { apply Hmem. split; [by apply Hvalid | by apply completion_no_conflict]. }
      by apply list_elem_of_singleton in Hin. }
    apply (IH (put g r c v)); try done.
    + by apply wf_put.
    + rewrite <- Hv. by apply extends_put.
  - injection Hforced as <-. apply grid_ext; try done.
    intros r c Hr Hc. apply Hext; try done. by apply Hspec.
Qed.

Lemma solve_finds_unique_completion_witness :
  ∃ log, run (solve 82) puzzle = Done (true, solution, log).
Proof.
  assert (wf_grid puzzle) as Hwf by (apply wf_grid_check; vm_compute; reflexivity).
  apply (solve_finds_unique_completion 82 puzzle solution).
  - exact Hwf.
  - apply wf_grid_check. vm_compute. reflexivity.
  - apply checked_valid. vm_compute. reflexivity.
  - apply extendsb_sound. vm_compute. reflexivity.
  - intros s' Hwfs' Hvalid Hext.
    apply (forced_unique 82 puzzle solution s' Hwf); [|done|done|done].
    vm_compute. reflexivity.
  - pose proof (count_empty_le puzzle). lia.
Defined.

(** X4. On a 9x9 grid in which some empty cell has no candidate digit
    left, [solve] returns [False] at once: it enters once, assigns nothing,
    makes no nested call and leaves the grid as it was. *)
Theorem solve_dead_end_immediate (fuel : nat) (g : grid) (r c : nat) :
  wf_grid g → r < 9 → c < 9 → cell g r c = 0%Z →
  (∀ n, (1 ≤ n ≤ 9)%Z → ¬ no_conflict g r c n) →
  run (solve (S fuel)) g = Done (false, g, [EvEnter 0 g]).
Proof.
  intros Hwf Hr Hc Hempty Hnone. unfold solve. cbn [solve_at].
  rewrite run_bind, run_enter. cbn [then_run].
  destruct (find_mrv_cell_reads g Hwf) as (res & Hres & Hspec).
  rewrite (reads_bind _ _ _ _ Hres).
  destruct res as [[[r0 c0] domain]|]; [|by destruct (Hspec r c Hr Hc)].
  destruct Hspec as (_ & _ & _ & _ & Hmin).
  destruct (get_domain_empty g r c Hwf Hr Hc Hempty) as (domain' & Hdomain' & Hmem & _).
  assert (domain' = []) as ->.
  { destruct domain' as [|n rest]; [done|]. exfalso.
    destruct (proj1 (Hmem n)) as [Hn Hok]; [left|]. by apply (Hnone n). }
  destruct (Hmin r c [] Hr Hc Hempty Hdomain') as [Hle _].
  destruct domain; [|simpl in Hle; lia].
  by rewrite decide_True.
Qed.

Lemma solve_dead_end_immediate_witness :
  run (solve 1) dead_end = Done (false, dead_end, [EvEnter 0 dead_end]).
Proof.
  apply (solve_dead_end_immediate 0 dead_end 0 0).
  - apply wf_grid_check. vm_compute. reflexivity.
  - lia.
  - lia.
  - reflexivity.
  - intros n Hn (Hrow & Hcol & _).
    destruct (decide (n = 9%Z)) as [->|Hne].
    + apply (Hcol 1); [lia | reflexivity].
    + apply (Hrow (Z.to_nat n)); [lia|].
      assert (n = 1 ∨ n = 2 ∨ n = 3 ∨ n = 4 ∨ n = 5 ∨ n = 6 ∨ n = 7 ∨ n = 8)%Z
        as Hcases by lia.
      destruct Hcases as [->|[->|[->|[->|[->|[->|[->| ->]]]]]]]; reflexivity.
Defined.

(** X5. On a 9x9 grid, [is_valid row col num] is [False] whenever [num] is
    the value the cell [(row, col)] itself holds: the row test does not
    skip the target cell, so [is_valid] answers for a digit not yet written
    and cannot confirm a clue that is already in place. *)
Theorem is_valid_rejects_own_value (g : grid) (row col : nat) :
  wf_grid g → row < 9 → col < 9 →
  run (is_valid row col (cell g row col)) g = Done (false, g, []).
Proof.
  intros Hwf Hrow Hcol.
  destruct (is_valid_reads g row col (cell g row col) Hwf Hrow Hcol) as (b & Hb & Hiff).
  destruct b; [|done]. exfalso.
  destruct (proj1 Hiff eq_refl) as (Hr & _). by apply (Hr col).
Qed.

Lemma is_valid_rejects_own_value_witness :
  run (is_valid 0 0 (cell puzzle 0 0)) puzzle = Done (false, puzzle, []).
Proof.
  apply (is_valid_rejects_own_value puzzle 0 0).
  - apply wf_grid_check. vm_compute. reflexivity.
  - lia.
  - lia.
Defined.

(** ** The caller's store *)

(** X8. Whatever [solve] returns, [True] or [False], and whatever the
    shape of the grid, [SudokuCSP(grid)] followed by [solve()] leaves the
    caller's grid and every row object that existed before exactly as they
    were, and allocates one new row object per row of the argument. *)
Theorem solve_call_keeps_caller (fuel : nat) (σ σ' : store) (grid_arg self : list nat)
    (b : bool) :
  Forall (λ l, l < length σ) grid_arg →
  solve_call fuel grid_arg σ = Done (b, self, σ') →
  view σ' grid_arg = view σ grid_arg ∧
  (∀ l, l < length σ → σ' !! l = σ !! l) ∧
  length σ' = length σ + length grid_arg.
Proof.
  intros Halloc. unfold solve_call.
  pose proof (init_fresh grid_arg σ) as Hinit.
  assert (length (init grid_arg σ).1 = length σ + length grid_arg) as Hgrow.
  { unfold init, view. simpl. by rewrite length_app, length_fmap. }
  destruct (init grid_arg σ) as [σ1 self0]. simpl in Hgrow.
  destruct Hinit as (Hnd & Hself & Hview & Hfresh & Hold).
  pose proof (run_store_sim (solve fuel) self0 σ1 Hnd Hself) as Hsim.
  destruct (run (solve fuel) (view σ1 self0)) as [[[b0 g'] log]| |];
    [|by rewrite Hsim|by rewrite Hsim].
  destruct Hsim as (σ2 & -> & Hview2 & Hlen & Hframe).
  intros [= -> <- <-].
  assert (∀ l, l < length σ → σ2 !! l = σ !! l) as Hkept.
  { intros l Hl. rewrite Hframe, Hold; [done | done |].
    intros Hin. apply Hfresh in Hin. lia. }
  split_and!.
  - unfold view. apply list_fmap_ext. intros i l Hl.
    rewrite !list_lookup_total_alt. f_equal. apply Hkept.
    rewrite Forall_forall in Halloc. apply Halloc. by eapply list_elem_of_lookup_2.
  - done.
  - lia.
Qed.

Lemma solve_call_keeps_caller_witness :
  ∃ self σ', solve_call 82 (seq 0 9) twisted = Done (false, self, σ') ∧
    view σ' (seq 0 9) = view twisted (seq 0 9) ∧
    (∀ l, l < length twisted → σ' !! l = twisted !! l) ∧
    length σ' = length twisted + length (seq 0 9).
Proof.
  eexists _, _. split; [vm_compute; reflexivity|].
  eapply (solve_call_keeps_caller 82 twisted _ (seq 0 9)).
  - apply Forall_forall. intros l Hl. apply elem_of_seq in Hl. simpl. lia.
  - vm_compute. reflexivity.
Defined.

(** * Part IV: the display and the console session *)

(** ** [display_grid] *)

Lemma cell_text_glyph v : (0 ≤ v ≤ 9)%Z → cell_text v = [glyph v].
Proof.
  intros Hv.
  assert (v = 0 ∨ v = 1 ∨ v = 2 ∨ v = 3 ∨ v = 4 ∨ v = 5 ∨ v = 6 ∨ v = 7 ∨ v = 8 ∨ v = 9)%Z
    as Hcases by lia.
  destruct Hcases as [->|[->|[->|[->|[->|[->|[->|[->|[->| ->]]]]]]]]]; reflexivity.
Qed.

Lemma glyph_inj v w : (0 ≤ v ≤ 9)%Z → (0 ≤ w ≤ 9)%Z → glyph v = glyph w → v = w.
Proof. unfold glyph. intros Hv Hw. repeat case_decide; lia. Qed.

Lemma nine_elements {A : Type} `{!Inhabited A} (l : list A) :
  length l = 9 →
  l = [l !!! 0; l !!! 1; l !!! 2; l !!! 3; l !!! 4; l !!! 5; l !!! 6; l !!! 7; l !!! 8].
Proof.
  intros Hlen. do 9 (destruct l as [|? l]; [done|]). by destruct l.
Qed.

Lemma row_text_glyphs g r :
  wf_grid g → in_range g → r < 9 → row_text (g !!! r) = row_glyphs g r.
Proof.
  intros Hwf Hrange Hr. destruct (wf_row g r Hwf Hr) as [_ Hlen].
  rewrite (nine_elements (g !!! r) Hlen). fold (cell g r 0) (cell g r 1) (cell g r 2)
    (cell g r 3) (cell g r 4) (cell g r 5) (cell g r 6) (cell g r 7) (cell g r 8).
  unfold row_text. cbn -[cell_text cell].
  rewrite !cell_text_glyph by (apply Hrange; lia). reflexivity.
Qed.

Lemma display_grid_nine (g : grid) :
  length g = 9 →
  display_grid g =
    Printed (newline ++ times box_h 25) ::
    (Printed <$> [row_text (g !!! 0); row_text (g !!! 1); row_text (g !!! 2); separator;
                  row_text (g !!! 3); row_text (g !!! 4); row_text (g !!! 5); separator;
                  row_text (g !!! 6); row_text (g !!! 7); row_text (g !!! 8)])
    ++ [Printed (times box_h 25 ++ newline)].
Proof.
  intros Hlen. rewrite (nine_elements g Hlen) at 1. reflexivity.
Qed.

(** X9. For a 9x9 grid of values 0..9, [display_grid] prints thirteen
    strings: a line break followed by a border of 25 dashes, then the nine
    rows with a separator before the fourth and the seventh, each row and
    each separator exactly 25 characters long, then the border again
    followed by a line break. *)
Theorem display_grid_aligned (g : grid) :
  wf_grid g → in_range g →
  ∃ body,
    display_grid g =
      Printed (newline ++ times box_h 25) :: (Printed <$> body)
      ++ [Printed (times box_h 25 ++ newline)] ∧
    length body = 11 ∧
    Forall (λ s, length s = 25) body ∧
    body !! 3 = Some separator ∧ body !! 7 = Some separator.
Proof.
  intros Hwf Hrange. destruct Hwf as [Hlen Hrows]. unfold size in Hlen.
  eexists. split; [by apply display_grid_nine|].
  assert (wf_grid g) as Hwf by done.
  split; [done|]. split; [|done].
  rewrite !(row_text_glyphs g _ Hwf Hrange) by lia.
  repeat (constructor; [reflexivity|]). constructor.
Qed.

Lemma display_grid_aligned_witness :
  ∃ body,
    display_grid puzzle =
      Printed (newline ++ times box_h 25) :: (Printed <$> body)
      ++ [Printed (times box_h 25 ++ newline)] ∧
    length body = 11 ∧
    Forall (λ s, length s = 25) body ∧
    body !! 3 = Some separator ∧ body !! 7 = Some separator.
Proof.
  apply (display_grid_aligned puzzle).
  - apply wf_grid_check. vm_compute. reflexivity.
  - apply in_rangeb_sound. vm_compute. reflexivity.
Defined.

Lemma row_glyphs_inj g1 g2 r :
  in_range g1 → in_range g2 → r < 9 → row_glyphs g1 r = row_glyphs g2 r →
  ∀ c, c < 9 → cell g1 r c = cell g2 r c.
Proof.
  intros H1 H2 Hr Heq c Hc. unfold row_glyphs in Heq.
  injection Heq as E0 E1 E2 E3 E4 E5 E6 E7 E8.
  assert (c = 0 ∨ c = 1 ∨ c = 2 ∨ c = 3 ∨ c = 4 ∨ c = 5 ∨ c = 6 ∨ c = 7 ∨ c = 8)
    as Hcases by lia.
  destruct Hcases as [->|[->|[->|[->|[->|[->|[->|[->| ->]]]]]]]];
    (apply glyph_inj; [apply H1; lia | apply H2; lia | assumption]).
Qed.

Lemma printed_rows_inj (top bottom sep : str) (a0 a1 a2 a3 a4 a5 a6 a7 a8 : str)
    (b0 b1 b2 b3 b4 b5 b6 b7 b8 : str) :
  Printed top :: (Printed <$> [a0; a1; a2; sep; a3; a4; a5; sep; a6; a7; a8])
    ++ [Printed bottom] =
  Printed top :: (Printed <$> [b0; b1; b2; sep; b3; b4; b5; sep; b6; b7; b8])
    ++ [Printed bottom] →
  [a0; a1; a2; a3; a4; a5; a6; a7; a8] = [b0; b1; b2; b3; b4; b5; b6; b7; b8].
Proof. intros Heq. injection Heq as -> -> -> -> -> -> -> -> ->. done. Qed.

(** X10. Two 9x9 grids of values 0..9 that [display_grid] prints alike
    are the same grid: the display loses nothing, an empty cell being the
    only one shown as a dot. *)
Theorem display_grid_injective (g1 g2 : grid) :
  wf_grid g1 → in_range g1 → wf_grid g2 → in_range g2 →
  display_grid g1 = display_grid g2 → g1 = g2.
Proof.
  intros Hwf1 Hrange1 Hwf2 Hrange2 Heq.
  assert (length g1 = 9) as Hlen1 by (by destruct Hwf1).
  assert (length g2 = 9) as Hlen2 by (by destruct Hwf2).
  rewrite (display_grid_nine g1 Hlen1), (display_grid_nine g2 Hlen2) in Heq.
  rewrite !(row_text_glyphs g1 _ Hwf1 Hrange1) in Heq by lia.
  rewrite !(row_text_glyphs g2 _ Hwf2 Hrange2) in Heq by lia.
  apply printed_rows_inj in Heq.
  apply grid_ext; try done. intros r c Hr Hc.
  assert (row_glyphs g1 r = row_glyphs g2 r) as Hrow.
  { assert (∀ l1 l2 : list str, l1 = l2 → l1 !! r = l2 !! r) as Hlookup
      by (by intros l1 l2 ->).
    apply Hlookup in Heq.
    assert (r = 0 ∨ r = 1 ∨ r = 2 ∨ r = 3 ∨ r = 4 ∨ r = 5 ∨ r = 6 ∨ r = 7 ∨ r = 8)
      as Hrows by lia.
    destruct Hrows as [->|[->|[->|[->|[->|[->|[->|[->| ->]]]]]]]];
      cbn [lookup list_lookup] in Heq; congruence. }
  by apply (row_glyphs_inj g1 g2 r).
Qed.

Lemma display_grid_injective_witness : puzzle = puzzle.
Proof.
  apply (display_grid_injective puzzle puzzle).
  - apply wf_grid_check. vm_compute. reflexivity.
  - apply in_rangeb_sound. vm_compute. reflexivity.
  - apply wf_grid_check. vm_compute. reflexivity.
  - apply in_rangeb_sound. vm_compute. reflexivity.
  - reflexivity.
Defined.

(** ** The console session *)

Lemma io_bind_eq {A B : Type} (m : io A) (f : A → io B) w :
  (m ≫= f) w = match m w with
               | Ok a w' => f a w'
               | Exn e w' => Exn e w'
               end.
Proof. reflexivity. Qed.

Lemma assign_put w row col num :
  wf_grid (w_puzzle w) → row < 9 → col < 9 →
  assign row col num w =
    Ok tt {| w_stdin := w_stdin w; w_stdout := w_stdout w;
             w_puzzle := put (w_puzzle w) row col num |}.
Proof.
  intros Hwf Hrow Hcol. destruct (wf_row _ row Hwf Hrow) as [Hlk Hlen].
  unfold assign. rewrite Hlk. rewrite decide_True by lia. done.
Qed.

Lemma input_line {A : Type} prompt (f : str → io A) line rest out g :
  (input prompt ≫= f) {| w_stdin := line :: rest; w_stdout := out; w_puzzle := g |} =
  f line {| w_stdin := rest; w_stdout := out ++ [Prompted prompt]; w_puzzle := g |}.
Proof. reflexivity. Qed.

Lemma input_eof {A : Type} prompt (f : str → io A) out g :
  (input prompt ≫= f) {| w_stdin := []; w_stdout := out; w_puzzle := g |} =
  Exn ExEOFError {| w_stdin := []; w_stdout := out ++ [Prompted prompt]; w_puzzle := g |}.
Proof. reflexivity. Qed.

Lemma int_of_number {A : Type} py s n (f : Z → io A) w :
  py_int py s = Some n → (int_of py s ≫= f) w = f n w.
Proof. intros Hs. rewrite io_bind_eq. unfold int_of. by rewrite Hs. Qed.

Lemma int_of_not_number {A : Type} py s (f : Z → io A) w :
  py_int py s = None → (int_of py s ≫= f) w = Exn ExValueError w.
Proof. intros Hs. rewrite io_bind_eq. unfold int_of. by rewrite Hs. Qed.

(** X11. When the three lines typed after choosing 1 are integers, the
    entry is applied exactly when the row and the column are in 1..9 and
    the number in 0..9: the cell at that row and column, counted from 1, is
    set to the number and the grid is displayed; any other entry, a row 0
    included, prints the range message and leaves the puzzle as it was. *)
Theorem edit_cell_three_numbers (py : builtins) (w : world) (a b c : str)
    (rest : list str) (row col num : Z) :
  wf_grid (w_puzzle w) →
  w_stdin w = a :: b :: c :: rest →
  py_int py a = Some row → py_int py b = Some col → py_int py c = Some num →
  edit_cell py w =
    Ok tt
      (if decide ((1 ≤ row ≤ 9)%Z ∧ (1 ≤ col ≤ 9)%Z ∧ (0 ≤ num ≤ 9)%Z) then
         let g' := put (w_puzzle w) (Z.to_nat (row - 1)) (Z.to_nat (col - 1)) num in
         {| w_stdin := rest;
            w_stdout := w_stdout w ++ edit_prompts
                        ++ [Printed (newline ++ codes "Updated Grid:")] ++ display_grid g';
            w_puzzle := g' |}
       else
         {| w_stdin := rest;
            w_stdout := w_stdout w ++ edit_prompts
                        ++ [Printed (codes
                              "Invalid input! Use values 1-9 for position and 0-9 for number.")];
            w_puzzle := w_puzzle w |}).
Proof.
  intros Hwf Hin Ha Hb Hc. destruct w as [stdin out g]. simpl in Hwf, Hin. subst stdin.
  unfold edit_cell, try_except_ValueError.
  rewrite input_line, (int_of_number py a row) by done.
  rewrite input_line, (int_of_number py b col) by done.
  rewrite input_line, (int_of_number py c num) by done.
  destruct (decide ((1 ≤ row ≤ 9)%Z ∧ (1 ≤ col ≤ 9)%Z ∧ (0 ≤ num ≤ 9)%Z)) as [Hok|Hbad].
  - rewrite decide_True by lia. rewrite io_bind_eq.
    rewrite assign_put by (simpl; try done; lia).
    unfold mbind, io_mbind, print, print_all, get_puzzle, edit_prompts.
    cbn [w_stdin w_stdout w_puzzle]. do 2 f_equal. by rewrite <- !app_assoc.
  - rewrite decide_False by lia.
    unfold print, edit_prompts. cbn [w_stdin w_stdout w_puzzle].
    do 2 f_equal. by rewrite <- !app_assoc.
Qed.

Lemma edit_cell_three_numbers_witness :
  edit_cell plain_builtins
    {| w_stdin := [codes "1"; codes "3"; codes "4"]; w_stdout := []; w_puzzle := puzzle |} =
  Ok tt
    (if decide ((1 ≤ 1 ≤ 9)%Z ∧ (1 ≤ 3 ≤ 9)%Z ∧ (0 ≤ 4 ≤ 9)%Z) then
       let g' := put puzzle (Z.to_nat (1 - 1)) (Z.to_nat (3 - 1)) 4 in
       {| w_stdin := [];
          w_stdout := [] ++ edit_prompts
                      ++ [Printed (newline ++ codes "Updated Grid:")] ++ display_grid g';
          w_puzzle := g' |}
     else
       {| w_stdin := [];
          w_stdout := [] ++ edit_prompts
                      ++ [Printed (codes
                            "Invalid input! Use values 1-9 for position and 0-9 for number.")];
          w_puzzle := puzzle |}).
Proof.
  apply (edit_cell_three_numbers plain_builtins
           {| w_stdin := [codes "1"; codes "3"; codes "4"]; w_stdout := [];
              w_puzzle := puzzle |}
           (codes "1") (codes "3") (codes "4") [] 1 3 4).
  - apply wf_grid_check. vm_compute. reflexivity.
  - reflexivity.
  - vm_compute. reflexivity.
  - vm_compute. reflexivity.
  - vm_compute. reflexivity.
Defined.

(** X12. When one of the three lines typed after choosing 1 is not an
    integer, the entry stops there: the prompts after it are not shown, the
    lines after it are left unread (the next one will be taken as a menu
    choice), the message asking for numbers is printed and the puzzle is
    as it was. *)
Theorem edit_cell_not_a_number (py : builtins) (w : world) (good : list str)
    (bad : str) (rest : list str) :
  w_stdin w = good ++ bad :: rest →
  length good < 3 →
  Forall (λ s, is_Some (py_int py s)) good →
  py_int py bad = None →
  edit_cell py w =
    Ok tt {| w_stdin := rest;
             w_stdout := w_stdout w ++ take (S (length good)) edit_prompts
                         ++ [Printed (codes "Invalid input! Please enter numbers only.")];
             w_puzzle := w_puzzle w |}.
Proof.
  intros Hin Hlen Hgood Hbad. destruct w as [stdin out g]. simpl in Hin. subst stdin.
  unfold edit_cell, try_except_ValueError, edit_prompts. cbn [w_stdout w_puzzle].
  destruct good as [|a [|b [|c good]]]; [| | |simpl in Hlen; lia]; cbn [app].
  - rewrite input_line, (int_of_not_number py bad) by done.
    unfold print. cbn [w_stdin w_stdout w_puzzle length take]. do 2 f_equal.
    by rewrite <- !app_assoc.
  - apply Forall_cons in Hgood as [[n Ha] _].
    rewrite input_line, (int_of_number py a n) by done.
    rewrite input_line, (int_of_not_number py bad) by done.
    unfold print. cbn [w_stdin w_stdout w_puzzle length take]. do 2 f_equal.
    by rewrite <- !app_assoc.
  - apply Forall_cons in Hgood as [[n Ha] Hgood].
    apply Forall_cons in Hgood as [[m Hb] _].
    rewrite input_line, (int_of_number py a n) by done.
    rewrite input_line, (int_of_number py b m) by done.
    rewrite input_line, (int_of_not_number py bad) by done.
    unfold print. cbn [w_stdin w_stdout w_puzzle length take]. do 2 f_equal.
    by rewrite <- !app_assoc.
Qed.

Lemma edit_cell_not_a_number_witness :
  edit_cell plain_builtins
    {| w_stdin := [codes "1"] ++ codes "x" :: [codes "2"]; w_stdout := [];
       w_puzzle := puzzle |} =
  Ok tt {| w_stdin := [codes "2"];
           w_stdout := [] ++ take (S (length [codes "1"])) edit_prompts
                       ++ [Printed (codes "Invalid input! Please enter numbers only.")];
           w_puzzle := puzzle |}.
Proof.
  apply (edit_cell_not_a_number plain_builtins
           {| w_stdin := [codes "1"] ++ codes "x" :: [codes "2"]; w_stdout := [];
              w_puzzle := puzzle |}
           [codes "1"] (codes "x") [codes "2"]).
  - reflexivity.
  - simpl. lia.
  - repeat constructor. vm_compute. eauto.
  - vm_compute. reflexivity.
Defined.

(** X13. On a puzzle that is a 9x9 grid of values 0..9 satisfying the
    uniqueness invariant, choosing 2 prints the announcement and then
    either the success line followed by the display of a complete valid
    Sudoku that keeps every clue of the puzzle, or, exactly when the puzzle
    has no legal completion, the line saying that no solution exists; it
    reads no input and leaves [puzzle] itself as it was. *)
Theorem solve_and_show_reports (fuel : nat) (w : world) :
  session_ok w → consistent (w_puzzle w) → 81 < fuel →
  ∃ shown,
    solve_and_show fuel w =
      Ok tt {| w_stdin := w_stdin w;
               w_stdout := w_stdout w
                 ++ [Printed (newline ++ codes "Solving using CSP with Backtracking + MRV..."
                              ++ newline)]
                 ++ shown;
               w_puzzle := w_puzzle w |} ∧
    ((¬ solvable (w_puzzle w) ∧
      shown = [Printed (ballot_x ++ codes " No solution exists for this puzzle.")]) ∨
     (∃ s, wf_grid s ∧ valid_sudoku s ∧ extends (w_puzzle w) s ∧
           shown = Printed (check_mark ++ codes " Solved using CSP!") :: display_grid s)).
Proof.
  intros [Hwf Hrange] Hcons Hfuel. destruct w as [stdin out g]. simpl in *.
  assert (count_empty g < fuel) as Hcount by (pose proof (count_empty_le g); lia).
  pose proof (solve_at_ok fuel 0 g Hwf) as Hpost.
  unfold solve_and_show. rewrite io_bind_eq. unfold print at 1.
  cbn [w_stdin w_stdout w_puzzle]. rewrite io_bind_eq. unfold get_puzzle.
  cbn [w_stdin w_stdout w_puzzle]. unfold solve.
  destruct (run (solve_at fuel 0) g) as [[[[|] g'] log]| |] eqn:Hrun; [| |done|lia].
  - destruct Hpost as (_ & Hfull & [n Hreach] & _).
    eexists. split.
    + unfold mbind, io_mbind, print, print_all. cbn [w_stdin w_stdout w_puzzle].
      do 2 f_equal. rewrite <- !app_assoc. reflexivity.
    + right. exists g'. split_and!; try done.
      * by apply (reach_wf n g g').
      * apply full_consistent_valid.
        -- by apply Hfull.
        -- by apply (reach_in_range n g g').
        -- by apply (reach_consistent n g g').
      * intros r c _ _ Hnz. by apply (reach_frame n g g').
  - eexists. split.
    + unfold print. cbn [w_stdin w_stdout w_puzzle].
      do 2 f_equal. rewrite <- !app_assoc. reflexivity.
    + left. split; [|done]. intros (s & _ & Hvalid & Hext).
      destruct (solve_at_complete s fuel Hvalid 0 g Hwf Hext Hcount) as (g2 & log2 & Hrun2).
      congruence.
Qed.

Lemma solve_and_show_reports_witness :
  ∃ shown,
    solve_and_show 82 {| w_stdin := []; w_stdout := []; w_puzzle := puzzle |} =
      Ok tt {| w_stdin := [];
               w_stdout := []
                 ++ [Printed (newline ++ codes "Solving using CSP with Backtracking + MRV..."
                              ++ newline)]
                 ++ shown;
               w_puzzle := puzzle |} ∧
    ((¬ solvable puzzle ∧
      shown = [Printed (ballot_x ++ codes " No solution exists for this puzzle.")]) ∨
     (∃ s, wf_grid s ∧ valid_sudoku s ∧ extends puzzle s ∧
           shown = Printed (check_mark ++ codes " Solved using CSP!") :: display_grid s)).
Proof.
  apply (solve_and_show_reports 82
           {| w_stdin := []; w_stdout := []; w_puzzle := puzzle |}).
  - split.
    + apply wf_grid_check. vm_compute. reflexivity.
    + apply in_rangeb_sound. vm_compute. reflexivity.
  - apply consistentb_sound. vm_compute. reflexivity.
  - lia.
Defined.

Lemma get_user_input_line {A : Type} py (f : str → io A) line rest out g :
  (get_user_input py ≫= f) {| w_stdin := line :: rest; w_stdout := out; w_puzzle := g |} =
  f (py_strip py line) {| w_stdin := rest; w_stdout := out ++ menu; w_puzzle := g |}.
Proof.
  unfold get_user_input, menu, mbind, io_mbind, print, input, mret, io_mret.
  cbn [w_stdin w_stdout w_puzzle]. by rewrite <- !app_assoc.
Qed.

Lemma get_user_input_eof {A : Type} py (f : str → io A) out g :
  (get_user_input py ≫= f) {| w_stdin := []; w_stdout := out; w_puzzle := g |} =
  Exn ExEOFError {| w_stdin := []; w_stdout := out ++ menu; w_puzzle := g |}.
Proof.
  unfold get_user_input, menu, mbind, io_mbind, print, input, mret, io_mret.
  cbn [w_stdin w_stdout w_puzzle]. by rewrite <- !app_assoc.
Qed.

Lemma edit_cell_safe py w :
  session_ok w →
  match edit_cell py w with
  | Ok _ w' => session_ok w' ∧ length (w_stdin w') ≤ length (w_stdin w)
  | Exn e w' => e = ExEOFError ∧ w_stdin w' = [] ∧ session_ok w'
  end.
Proof.
  intros Hok. destruct w as [stdin out g]. unfold session_ok in *. simpl in Hok.
  destruct Hok as [Hwf Hrange].
  unfold edit_cell, try_except_ValueError.
  destruct stdin as [|a stdin]; [by rewrite input_eof|].
  rewrite input_line. destruct (py_int py a) as [row|] eqn:Ha;
    [rewrite (int_of_number py a row) by done
    |rewrite (int_of_not_number py a) by done; simpl; split; [done | lia]].
  destruct stdin as [|b stdin]; [by rewrite input_eof|].
  rewrite input_line. destruct (py_int py b) as [col|] eqn:Hb;
    [rewrite (int_of_number py b col) by done
    |rewrite (int_of_not_number py b) by done; simpl; split; [done | lia]].
  destruct stdin as [|c stdin]; [by rewrite input_eof|].
  rewrite input_line. destruct (py_int py c) as [num|] eqn:Hc;
    [rewrite (int_of_number py c num) by done
    |rewrite (int_of_not_number py c) by done; simpl; split; [done | lia]].
  case_decide as Hbounds.
  - rewrite io_bind_eq. rewrite assign_put by (simpl; try done; lia).
    unfold mbind, io_mbind, print, print_all, get_puzzle.
    cbn [w_stdin w_stdout w_puzzle length]. split_and!.
    + by apply wf_put.
    + apply in_range_put; try done; lia.
    + lia.
  - unfold print. cbn [w_stdin w_stdout w_puzzle length]. split; [done | lia].
Qed.

Lemma solve_and_show_safe fuel w :
  session_ok w → 81 < fuel → ends_well (solve_and_show fuel w).
Proof.
  intros [Hwf Hrange] Hfuel. destruct w as [stdin out g]. simpl in *.
  pose proof (solve_at_ok fuel 0 g Hwf) as Hpost. pose proof (count_empty_le g).
  unfold solve_and_show. rewrite io_bind_eq. unfold print at 1.
  cbn [w_stdin w_stdout w_puzzle]. rewrite io_bind_eq. unfold get_puzzle.
  cbn [w_stdin w_stdout w_puzzle]. unfold solve.
  destruct (run (solve_at fuel 0) g) as [[[[|] g'] log]| |]; [| |done|lia].
  - unfold mbind, io_mbind, print, print_all. by cbn [w_stdin w_stdout w_puzzle ends_well].
  - unfold print. by cbn [w_stdin w_stdout w_puzzle ends_well].
Qed.

Lemma main_loop_safe py fuel n :
  81 < fuel → ∀ w, session_ok w → length (w_stdin w) < n →
  ends_well (main_loop py fuel n w).
Proof.
  intros Hfuel. induction n as [|n IH]; intros w Hok Hlen; [lia|].
  destruct w as [stdin out g]. cbn [main_loop].
  destruct stdin as [|line stdin]; [by rewrite get_user_input_eof|].
  rewrite get_user_input_line. cbn [w_stdin length] in Hlen.
  repeat case_decide.
  - rewrite io_bind_eq.
    pose proof (edit_cell_safe py {| w_stdin := stdin; w_stdout := out ++ menu;
                                     w_puzzle := g |} Hok) as Hedit.
    destruct (edit_cell py _) as [[] w'|e w']; [|done].
    destruct Hedit as [Hok' Hlen']. apply IH; [done|]. simpl in Hlen'. lia.
  - by apply solve_and_show_safe.
  - done.
  - rewrite io_bind_eq. unfold print. apply IH; [done|]. simpl. lia.
Qed.

(** X14. Whatever the user types, and however [strip] and [int] read it,
    a session of [main] ends in one of two ways only: [main] returns, or
    [input] raises [EOFError] because standard input is exhausted.  The
    solver never raises [IndexError], no [ValueError] escapes, the loop
    does not outlast the input, and [puzzle] is at every exit a 9x9 grid of
    values 0..9. *)
Theorem main_ends_well (py : builtins) (fuel : nat) (stdin : list str) :
  81 < fuel → ends_well (main py fuel stdin).
Proof.
  intros Hfuel. unfold main. rewrite !io_bind_eq. unfold print, print_all.
  cbn [w_stdin w_stdout w_puzzle]. apply main_loop_safe; [done| |simpl; lia].
  split.
  - apply wf_grid_check. vm_compute. reflexivity.
  - apply in_rangeb_sound. vm_compute. reflexivity.
Qed.

Lemma main_ends_well_witness :
  ends_well (main plain_builtins 82 [codes "1"; codes "1"; codes "3"; codes "4"; codes "2"]).
Proof. apply (main_ends_well plain_builtins 82). lia. Defined.
